(** * The particle network animation of [network-animation.vue]

    A shallow embedding of the script part of the component: the particle
    factory, the store, the throttled spawner, the line renderer, the
    animation loop and the pointer handlers, followed by the properties
    the specification states about them.

    JavaScript numbers are kept abstract behind the interface [Number] and
    the program is written once against it.  Two readings are given:
    - [float]: IEEE 754 binary64, the arithmetic the script really runs
      on; every definition computes there, so a run of the script on
      given inputs is replayed by evaluation;
    - [R]: exact real arithmetic, for the statements that quantify over
      all coordinates.

    The objects of the script are shared and mutated in place (the store
    and [interactionParticle] point at the same particle), so particles
    live in a heap and are named by references. *)

From Stdlib Require Import ZArith Reals Lra Lia Floats SpecFloat List String Bool.
From stdpp Require Import base list.

(** ** Numbers *)

Class Number (num : Type) : Type := {
  of_Z : Z -> num;                (* an integer literal *)
  nadd : num -> num -> num;
  nsub : num -> num -> num;
  nmul : num -> num -> num;
  ndiv : num -> num -> num;
  nneg : num -> num;
  nlt : num -> num -> bool;       (* a < b *)
  strict_eq : num -> num -> bool; (* a === b *)
  truthy : num -> bool;           (* ToBoolean, as used by ||, && and ! *)
  Math_abs : num -> num;
  Math_min : num -> num -> num;
  Math_sqrt : num -> num;
  Math_pow : num -> nat -> num;   (* Math.pow with a literal natural exponent *)
  Math_floor : num -> num;
  Math_round : num -> num;
  Math_PI : num;
  as_index : num -> option nat    (* a number used as an array subscript *)
}.

Declare Scope js_scope.
Delimit Scope js_scope with J.
Notation "a + b" := (nadd a b) : js_scope.
Notation "a - b" := (nsub a b) : js_scope.
Notation "a * b" := (nmul a b) : js_scope.
Notation "a / b" := (ndiv a b) : js_scope.
Notation "- a" := (nneg a) : js_scope.
Notation "a <? b" := (nlt a b) : js_scope.
Notation "a >? b" := (nlt b a) : js_scope.
Notation "# z" := (of_Z z%Z) (at level 9, z at level 9, format "# z") : js_scope.

Definition of_nat {num} `{Number num} (n : nat) : num := of_Z (Z.of_nat n).

(** *** binary64 *)

Definition float_of_Z (z : Z) : float :=
  SF2Prim (binary_normalize 53 1024 z 0 false).

Definition float_truthy (f : float) : bool :=
  negb (PrimFloat.eqb f 0%float) && PrimFloat.eqb f f.

Definition float_min (a b : float) : float :=
  if PrimFloat.is_nan a then a
  else if PrimFloat.is_nan b then b
  else if PrimFloat.ltb a b then a
  else if PrimFloat.ltb b a then b
  else if PrimFloat.get_sign a then a else b.

Fixpoint float_pow (a : float) (n : nat) : float :=
  match n with
  | O => 1%float
  | S k => PrimFloat.mul a (float_pow a k)
  end.

Definition float_floor (f : float) : float :=
  match Prim2SF f with
  | S754_finite s m e =>
      if (0 <=? e)%Z then f
      else
        let d := (2 ^ (- e))%Z in
        if s then
          (if (Z.pos m mod d =? 0)%Z then f
           else float_of_Z (- ((Z.pos m + d - 1) / d)))
        else float_of_Z (Z.pos m / d)
  | _ => f
  end.

(* Math.round: the nearest integer, ties towards +infinity, and -0 for
   negative arguments that round to zero. *)
Definition float_round (f : float) : float :=
  match Prim2SF f with
  | S754_finite s m e =>
      if (0 <=? e)%Z then f
      else
        let d := (2 ^ (- e))%Z in
        let n := if s then Z.neg m else Z.pos m in
        let r := ((2 * n + d) / (2 * d))%Z in
        if (r =? 0)%Z && s then (-0)%float else float_of_Z r
  | _ => f
  end.

Definition float_index (f : float) : option nat :=
  match Prim2SF f with
  | S754_zero _ => Some O
  | S754_finite false m e =>
      if (0 <=? e)%Z then Some (Z.to_nat (Z.pos m * 2 ^ e))
      else
        let d := (2 ^ (- e))%Z in
        if (Z.pos m mod d =? 0)%Z then Some (Z.to_nat (Z.pos m / d)) else None
  | _ => None
  end.

#[export] Instance float_Number : Number float := {|
  of_Z := float_of_Z;
  nadd := PrimFloat.add;
  nsub := PrimFloat.sub;
  nmul := PrimFloat.mul;
  ndiv := PrimFloat.div;
  nneg := PrimFloat.opp;
  nlt := PrimFloat.ltb;
  strict_eq := PrimFloat.eqb;
  truthy := float_truthy;
  Math_abs := PrimFloat.abs;
  Math_min := float_min;
  Math_sqrt := PrimFloat.sqrt;
  Math_pow := float_pow;
  Math_floor := float_floor;
  Math_round := float_round;
  Math_PI := 0x1.921fb54442d18p+1%float;
  as_index := float_index
|}.

(** *** exact reals *)

Definition Rltb (a b : R) : bool := if Rlt_dec a b then true else false.
Definition Reqb (a b : R) : bool := if Req_dec_T a b then true else false.

Definition R_index (a : R) : option nat :=
  if Req_dec_T a (IZR (Int_part a)) then
    (if (0 <=? Int_part a)%Z then Some (Z.to_nat (Int_part a)) else None)
  else None.

#[export] Instance R_Number : Number R := {|
  of_Z := IZR;
  nadd := Rplus;
  nsub := Rminus;
  nmul := Rmult;
  ndiv := Rdiv;
  nneg := Ropp;
  nlt := Rltb;
  strict_eq := Reqb;
  truthy := fun a => negb (Reqb a 0%R);
  Math_abs := Rabs;
  Math_min := Rmin;
  Math_sqrt := R_sqrt.sqrt;
  Math_pow := Rpow_def.pow;
  Math_floor := fun a => IZR (Int_part a);
  Math_round := fun a => IZR (Int_part (a + / 2)%R);
  Math_PI := Rtrigo1.PI;
  as_index := R_index
|}.

(** ** Data *)

Module Velocity.
Record t (num : Type) : Type := mk { x : num; y : num }.
Arguments mk {num} _ _.
Arguments x {num} _.
Arguments y {num} _.
End Velocity.

(* type Particle; [particleColor] is [None] when the field holds undefined *)
Record Particle (num : Type) : Type := mkParticle {
  opacity : num;
  x : num;
  y : num;
  radius : num;
  particleColor : option string;
  velocity : Velocity.t num
}.
Arguments mkParticle {num} _ _ _ _ _ _.
Arguments opacity {num} _.
Arguments x {num} _.
Arguments y {num} _.
Arguments radius {num} _.
Arguments particleColor {num} _.
Arguments velocity {num} _.

(* const options *)
Module Options.
Record t (num : Type) : Type := mk {
  velocity : num;
  density : num;
  netLineDistance : num;
  netLineColor : string;
  particleColors : list string
}.
Arguments mk {num} _ _ _ _ _.
Arguments velocity {num} _.
Arguments density {num} _.
Arguments netLineDistance {num} _.
Arguments netLineColor {num} _.
Arguments particleColors {num} _.
End Options.

Definition options {num} `{Number num} : Options.t num :=
  Options.mk (#1 / #2)%J (#15000)%J (#200)%J "#929292"%string ["#aaa"%string].

(* The calls made on the 2D context, in order. *)
Inductive Draw (num : Type) : Type :=
| clearRect (x0 y0 w h : num)
| globalAlpha (a : num)
| beginPath
| strokeStyle (c : string)
| lineWidth (w : num)
| moveTo (x0 y0 : num)
| lineTo (x0 y0 : num)
| stroke
| fillStyle (c : option string)
| arc (x0 y0 r a0 a1 : num)
| fill.
Arguments clearRect {num} _ _ _ _.
Arguments globalAlpha {num} _.
Arguments beginPath {num}.
Arguments strokeStyle {num} _.
Arguments lineWidth {num} _.
Arguments moveTo {num} _ _.
Arguments lineTo {num} _ _.
Arguments stroke {num}.
Arguments fillStyle {num} _.
Arguments arc {num} _ _ _ _ _.
Arguments fill {num}.

(* A reference to a particle object: its position in the heap. *)
Definition ref : Type := nat.

(* The variables counter and quantity captured by the interval callback of
   createParticles. *)
Record Spawn (num : Type) : Type := mkSpawn { counter : nat; quantity : num }.
Arguments mkSpawn {num} _ _.
Arguments counter {num} _.
Arguments quantity {num} _.

(* The variables counter and quantity captured by the interval callback of
   the mousedown listener. *)
Record MouseSpawn : Type := mkMouseSpawn { md_counter : nat; md_quantity : nat }.

(* The module-level variables, the variables of bindUiActions, the live
   timers, and the number of Math.random() calls made so far. *)
Record World (num : Type) : Type := mkWorld {
  heap : list (Particle num);
  canvas_width : num;
  canvas_height : num;
  interactionParticle : option ref;
  particles : list ref;
  animationFrame : bool;
  createIntervalId : option (Spawn num);
  mouseIsDown : bool;
  touchIsMoving : bool;
  mouseIntervals : list MouseSpawn;
  touchTimeouts : list (num * num);
  resizeTimer : bool;
  randomCalls : nat
}.
Arguments mkWorld {num} _ _ _ _ _ _ _ _ _ _ _ _ _.
Arguments heap {num} _.
Arguments canvas_width {num} _.
Arguments canvas_height {num} _.
Arguments interactionParticle {num} _.
Arguments particles {num} _.
Arguments animationFrame {num} _.
Arguments createIntervalId {num} _.
Arguments mouseIsDown {num} _.
Arguments touchIsMoving {num} _.
Arguments mouseIntervals {num} _.
Arguments touchTimeouts {num} _.
Arguments resizeTimer {num} _.
Arguments randomCalls {num} _.

(** ** The program *)

Section Program.
Context {num : Type} `{Number num}.

(* Math.random(): the k-th call of the run returns [rand k]. *)
Variable rand : nat -> num.
(* The configuration object; the script's own is [options] above. *)
Variable opts : Options.t num.

Local Open Scope js_scope.

(** *** Assignments to the variables *)

Definition set_heap (h : list (Particle num)) (w : World num) : World num :=
  mkWorld h (canvas_width w) (canvas_height w) (interactionParticle w)
    (particles w) (animationFrame w) (createIntervalId w) (mouseIsDown w)
    (touchIsMoving w) (mouseIntervals w) (touchTimeouts w) (resizeTimer w)
    (randomCalls w).

Definition set_canvas (cw ch : num) (w : World num) : World num :=
  mkWorld (heap w) cw ch (interactionParticle w)
    (particles w) (animationFrame w) (createIntervalId w) (mouseIsDown w)
    (touchIsMoving w) (mouseIntervals w) (touchTimeouts w) (resizeTimer w)
    (randomCalls w).

Definition set_interactionParticle (o : option ref) (w : World num) : World num :=
  mkWorld (heap w) (canvas_width w) (canvas_height w) o
    (particles w) (animationFrame w) (createIntervalId w) (mouseIsDown w)
    (touchIsMoving w) (mouseIntervals w) (touchTimeouts w) (resizeTimer w)
    (randomCalls w).

Definition set_particles (l : list ref) (w : World num) : World num :=
  mkWorld (heap w) (canvas_width w) (canvas_height w) (interactionParticle w)
    l (animationFrame w) (createIntervalId w) (mouseIsDown w)
    (touchIsMoving w) (mouseIntervals w) (touchTimeouts w) (resizeTimer w)
    (randomCalls w).

Definition set_animationFrame (b : bool) (w : World num) : World num :=
  mkWorld (heap w) (canvas_width w) (canvas_height w) (interactionParticle w)
    (particles w) b (createIntervalId w) (mouseIsDown w)
    (touchIsMoving w) (mouseIntervals w) (touchTimeouts w) (resizeTimer w)
    (randomCalls w).

Definition set_createIntervalId (t : option (Spawn num)) (w : World num) : World num :=
  mkWorld (heap w) (canvas_width w) (canvas_height w) (interactionParticle w)
    (particles w) (animationFrame w) t (mouseIsDown w)
    (touchIsMoving w) (mouseIntervals w) (touchTimeouts w) (resizeTimer w)
    (randomCalls w).

Definition set_mouseIsDown (b : bool) (w : World num) : World num :=
  mkWorld (heap w) (canvas_width w) (canvas_height w) (interactionParticle w)
    (particles w) (animationFrame w) (createIntervalId w) b
    (touchIsMoving w) (mouseIntervals w) (touchTimeouts w) (resizeTimer w)
    (randomCalls w).

Definition set_touchIsMoving (b : bool) (w : World num) : World num :=
  mkWorld (heap w) (canvas_width w) (canvas_height w) (interactionParticle w)
    (particles w) (animationFrame w) (createIntervalId w) (mouseIsDown w)
    b (mouseIntervals w) (touchTimeouts w) (resizeTimer w)
    (randomCalls w).

Definition set_mouseIntervals (l : list MouseSpawn) (w : World num) : World num :=
  mkWorld (heap w) (canvas_width w) (canvas_height w) (interactionParticle w)
    (particles w) (animationFrame w) (createIntervalId w) (mouseIsDown w)
    (touchIsMoving w) l (touchTimeouts w) (resizeTimer w)
    (randomCalls w).

Definition set_touchTimeouts (l : list (num * num)) (w : World num) : World num :=
  mkWorld (heap w) (canvas_width w) (canvas_height w) (interactionParticle w)
    (particles w) (animationFrame w) (createIntervalId w) (mouseIsDown w)
    (touchIsMoving w) (mouseIntervals w) l (resizeTimer w)
    (randomCalls w).

Definition set_resizeTimer (b : bool) (w : World num) : World num :=
  mkWorld (heap w) (canvas_width w) (canvas_height w) (interactionParticle w)
    (particles w) (animationFrame w) (createIntervalId w) (mouseIsDown w)
    (touchIsMoving w) (mouseIntervals w) (touchTimeouts w) b
    (randomCalls w).

Definition set_randomCalls (n : nat) (w : World num) : World num :=
  mkWorld (heap w) (canvas_width w) (canvas_height w) (interactionParticle w)
    (particles w) (animationFrame w) (createIntervalId w) (mouseIsDown w)
    (touchIsMoving w) (mouseIntervals w) (touchTimeouts w) (resizeTimer w)
    n.

(** *** A state monad for the code that draws random numbers and
    allocates *)

Definition St (A : Type) : Type := World num -> A * World num.

Definition ret {A} (a : A) : St A := fun w => (a, w).

Definition bind {A B} (m : St A) (k : A -> St B) : St B :=
  fun w => let (a, w') := m w in k a w'.

Notation "v <- m ;; k" := (bind m (fun v => k))
  (at level 100, m at next level, right associativity).

Definition random : St num :=
  fun w => (rand (randomCalls w), set_randomCalls (S (randomCalls w)) w).

(* an object literal of type Particle: a new heap cell *)
Definition new (p : Particle num) : St ref :=
  fun w => (length (heap w), set_heap (heap w ++ [p]) w).

(* particles.push(r) *)
Definition push (r : ref) (w : World num) : World num :=
  set_particles (particles w ++ [r]) w.

(** *** Helper functions *)

Definition generateRandomPosition : St (num * num) :=
  r1 <- random ;;
  r2 <- random ;;
  fun w => ((r1 * canvas_width w, r2 * canvas_height w), w).

Definition getLimitedRandom (min max : num) (roundToInteger : bool) : St num :=
  r <- random ;;
  let number := r * (max - min) + min in
  ret (if roundToInteger then Math_round number else number).

(** *** Particle functions *)

(* [o || d] for an optional numeric argument [o] *)
Definition or_else (o : option num) (d : num) : num :=
  match o with
  | Some v => if truthy v then v else d
  | None => d
  end.

Definition createParticle (overwriteX overwriteY : option num) : St ref :=
  pos <- generateRandomPosition ;;
  rad <- getLimitedRandom (#3 / #2) (#5 / #2) true ;;
  rc <- random ;;
  let color :=
    match as_index (Math_floor (rc * of_nat (length (Options.particleColors opts)))) with
    | Some i => Options.particleColors opts !! i
    | None => None
    end in
  rx <- random ;;
  ry <- random ;;
  new (mkParticle
         (#0)
         (or_else overwriteX (fst pos))
         (or_else overwriteY (snd pos))
         rad
         color
         (Velocity.mk ((rx - #1 / #2) * Options.velocity opts)
                      ((ry - #1 / #2) * Options.velocity opts))).

(* The effect of updateParticle(particle) on the fields of the object;
   [cw] and [ch] are canvas.width and canvas.height at the call. *)
Definition updateParticle (cw ch : num) (particle : Particle num) : Particle num :=
  let o := if opacity particle <? #1 then opacity particle + #1 / #100 else #1 in
  let vx :=
    if (x particle >? cw + #100) || (x particle <? - #100)
    then - Velocity.x (velocity particle) else Velocity.x (velocity particle) in
  let vy :=
    if (y particle >? ch + #100) || (y particle <? - #100)
    then - Velocity.y (velocity particle) else Velocity.y (velocity particle) in
  mkParticle o (x particle + vx) (y particle + vy)
    (radius particle) (particleColor particle) (Velocity.mk vx vy).

Definition drawParticle (particle : Particle num) : list (Draw num) :=
  [ beginPath;
    fillStyle (particleColor particle);
    globalAlpha (opacity particle);
    arc (x particle) (y particle) (radius particle) (#0) (#2 * Math_PI);
    fill ].

Definition createInteractionParticle : St ref :=
  r <- createParticle None None ;;
  fun w =>
    let h := alter (fun p => mkParticle (opacity p) (x p) (y p) (radius p)
                               (particleColor p) (Velocity.mk (#0) (#0)))
                   r (heap w) in
    (r, push r (set_interactionParticle (Some r) (set_heap h w))).

(* particles.indexOf(r): the first position holding the same object *)
Definition indexOf (l : list ref) (r : ref) : option nat :=
  fst <$> list_find (fun r' => r' = r) l.

Definition removeInteractionParticle (w : World num) : World num :=
  match interactionParticle w with
  | Some r =>
      match indexOf (particles w) r with
      | Some index =>
          set_particles (delete index (particles w))
            (set_interactionParticle None w)
      | None => w
      end
  | None => w
  end.

(** *** Spawning *)

(* The callback createParticles(true) hands to setInterval, run on the
   live interval if there is one.  createParticle returns an object, so
   the test if (particle) always passes. *)
Definition spawnTick (w : World num) : World num :=
  match createIntervalId w with
  | Some t =>
      if of_nat (counter t) <? quantity t - #1 then
        let (particle, w1) := createParticle None None w in
        set_createIntervalId (Some (mkSpawn (S (counter t)) (quantity t)))
          (push particle w1)
      else set_createIntervalId None w
  | None => w
  end.

(* for (var i = 0; i < quantity; i++) { ... }, run for at most [fuel]
   rounds; [None] when the rounds do not suffice. *)
Fixpoint spawnLoop (fuel : nat) (i : nat) (q : num) (w : World num)
  : option (World num) :=
  if of_nat i <? q then
    match fuel with
    | O => None
    | S fuel' =>
        let (particle, w1) := createParticle None None w in
        spawnLoop fuel' (S i) q (push particle w1)
    end
  else Some w.

Definition createParticles (fuel : nat) (isInitial : bool) (w : World num)
  : option (World num) :=
  let q := (canvas_width w * canvas_height w) / Options.density opts in
  if isInitial then
    Some (set_createIntervalId (Some (mkSpawn 0 q)) w)
  else spawnLoop fuel 0 q w.

(* createParticles(true) needs no rounds of the loop, so [default] never
   falls back. *)
Definition initParticleNetwork (w : World num) : World num :=
  set_animationFrame true (default w (createParticles 0 true w)).

(** *** The animation loop *)

(* The body of the inner loop of updateParticleNetwork for the pair
   p1 = particles[i], p2 = particles[j]. *)
Definition connection (p1 p2 : Particle num) : list (Draw num) :=
  let distance := Math_min (Math_abs (x p1 - x p2)) (Math_abs (y p1 - y p2)) in
  if distance >? Options.netLineDistance opts then []
  else
    let distance :=
      Math_sqrt (Math_pow (x p1 - x p2) 2 + Math_pow (y p1 - y p2) 2) in
    if distance >? Options.netLineDistance opts then []
    else
      [ beginPath;
        strokeStyle (Options.netLineColor opts);
        globalAlpha
          (((Options.netLineDistance opts - distance)
            / Options.netLineDistance opts) * opacity p1 * opacity p2);
        lineWidth (#7 / #10);
        moveTo (x p1) (y p1);
        lineTo (x p2) (y p2);
        stroke ].

(* particles[i], read through the heap *)
Definition particle_at (w : World num) (i : nat) : option (Particle num) :=
  match particles w !! i with
  | Some r => heap w !! r
  | None => None
  end.

(* for (i = 0; i < n; i++) for (j = n - 1; j > i; j--) body(i, j) *)
Definition pairs (n : nat) : list (nat * nat) :=
  flat_map (fun i => map (fun j => (i, j)) (rev (seq (S i) (n - S i)))) (seq 0 n).

Definition drawConnections (w : World num) : list (Draw num) :=
  flat_map
    (fun ij : nat * nat =>
       match particle_at w (fst ij), particle_at w (snd ij) with
       | Some p1, Some p2 => connection p1 p2
       | _, _ => []
       end)
    (pairs (length (particles w))).

(* for (index ...) { updateParticle(particle); drawParticle(particle) } *)
Definition drawParticles (cw ch : num) (l : list ref) (h : list (Particle num))
  : list (Particle num) * list (Draw num) :=
  fold_left
    (fun (acc : list (Particle num) * list (Draw num)) (particle : ref) =>
       let h' := alter (updateParticle cw ch) particle (fst acc) in
       (h', snd acc ++ from_option drawParticle [] (h' !! particle)))
    l (h, []).

(* One run of the frame callback.  [canvas] is set before the first frame
   is requested, so the branch that cancels the frame is never taken. *)
Definition updateParticleNetwork (w : World num) : World num * list (Draw num) :=
  let lines := drawConnections w in
  let (h, dots) :=
    drawParticles (canvas_width w) (canvas_height w) (particles w) (heap w) in
  let w1 := set_heap h w in
  (if strict_eq (Options.velocity opts) (#0) then w1 else set_animationFrame true w1,
   [clearRect (#0) (#0) (canvas_width w) (canvas_height w); globalAlpha (#1)]
     ++ lines ++ dots).

(** *** The canvas and the listeners *)

Definition sizeCanvas (offsetWidth offsetHeight : num) (w : World num) : World num :=
  if truthy offsetWidth && truthy offsetHeight
  then set_canvas offsetWidth offsetHeight w
  else w.

Definition spawnQuantity : nat := 3.

(* createParticle(x, y) followed by particles.push *)
Definition spawnAt (ox oy : num) (w : World num) : World num :=
  let (particle, w1) := createParticle (Some ox) (Some oy) w in
  push particle w1.

(* if (!interactionParticle) createInteractionParticle();
   if (interactionParticle) { interactionParticle.x = ...; .y = ... } *)
Definition moveInteractionParticle (px py : num) (w : World num) : World num :=
  let w1 :=
    match interactionParticle w with
    | None => snd (createInteractionParticle w)
    | Some _ => w
    end in
  match interactionParticle w1 with
  | Some r =>
      set_heap
        (alter (fun p => mkParticle (opacity p) px py (radius p)
                           (particleColor p) (velocity p))
               r (heap w1))
        w1
  | None => w1
  end.

(* The callback the mousedown listener hands to setInterval, for the
   i-th live interval. *)
Definition mouseTick (i : nat) (w : World num) : World num :=
  match mouseIntervals w !! i with
  | Some t =>
      if mouseIsDown w then
        let q := if Nat.eqb (md_counter t) 1 then 1%nat else md_quantity t in
        let body (w' : World num) :=
          match interactionParticle w' with
          | Some r =>
              match heap w' !! r with
              | Some ip => spawnAt (x ip) (y ip) w'
              | None => w'
              end
          | None => w'
          end in
        let w1 := Nat.iter q body w in
        set_mouseIntervals
          (<[i := mkMouseSpawn (S (md_counter t)) q]> (mouseIntervals w1)) w1
      else set_mouseIntervals (delete i (mouseIntervals w)) w
  | None => w
  end.

(* The callback the touchstart listener hands to setTimeout. *)
Definition touchTimeout (i : nat) (w : World num) : World num :=
  match touchTimeouts w !! i with
  | Some (cx, cy) =>
      let w1 := set_touchTimeouts (delete i (touchTimeouts w)) w in
      if negb (touchIsMoving w1)
      then Nat.iter spawnQuantity (spawnAt cx cy) w1
      else w1
  | None => w
  end.

(* debounce(mainFunction, 500), as the resize listener sees it: the
   function it returns clears the timer and sets a new one, so that a
   timer is pending after a resize event.  [resizeTimer] only tells
   whether one is pending; the timeouts themselves are in [Debounced]
   below. *)
Definition debounce (w : World num) : World num := set_resizeTimer true w.

(* The function handed to debounce; it runs when the pending timer
   expires. *)
Definition onResize (offsetWidth offsetHeight : num) (w : World num)
  : World num * list (Draw num) :=
  let w1 := set_animationFrame false w in
  let w2 := set_particles [] w1 in
  let w3 := sizeCanvas offsetWidth offsetHeight w2 in
  (initParticleNetwork w3,
   [clearRect (#0) (#0) (canvas_width w) (canvas_height w)]).

(** *** Events *)

(* What the host can do next: deliver an input event to a listener bound
   by init and bindUiActions, or run a pending callback.  Callbacks run to
   completion, one at a time; the time between them is not modelled. *)
Inductive Event : Type :=
| mousemove (offsetX offsetY : num)
| touchmove (clientX clientY : num)       (* changedTouches[0] *)
| mousedown
| mouseup
| mouseout
| touchstart (clientX clientY : num)      (* changedTouches[0] *)
| touchend
| resize                                  (* window resize *)
| resizeFires (offsetWidth offsetHeight : num)
    (* the debounce timer expires; the container has this size *)
| spawnFires                              (* the interval of createParticles *)
| mouseFires (i : nat)                    (* the i-th interval of mousedown *)
| touchFires (i : nat)                    (* the i-th timeout of touchstart *)
| frame.                                  (* the requested animation frame *)

Definition step (w : World num) (e : Event) : World num * list (Draw num) :=
  match e with
  | mousemove ox oy => (moveInteractionParticle ox oy w, [])
  | touchmove cx cy =>
      (moveInteractionParticle cx cy (set_touchIsMoving true w), [])
  | mousedown =>
      (set_mouseIntervals (mouseIntervals w ++ [mkMouseSpawn 0 spawnQuantity])
         (set_mouseIsDown true w), [])
  | mouseup => (set_mouseIsDown false w, [])
  | mouseout => (removeInteractionParticle w, [])
  | touchstart cx cy =>
      (set_touchTimeouts (touchTimeouts w ++ [(cx, cy)]) w, [])
  | touchend => (removeInteractionParticle (set_touchIsMoving false w), [])
  | resize => (debounce w, [])
  | resizeFires ow oh =>
      if resizeTimer w then onResize ow oh (set_resizeTimer false w)
      else (w, [])
  | spawnFires => (spawnTick w, [])
  | mouseFires i => (mouseTick i w, [])
  | touchFires i => (touchTimeout i w, [])
  | frame =>
      if animationFrame w
      then updateParticleNetwork (set_animationFrame false w)
      else (w, [])
  end.

(* Running a sequence of events; the draw calls are collected in order. *)
Fixpoint run (w : World num) (es : list Event) : World num * list (Draw num) :=
  match es with
  | [] => (w, [])
  | e :: es' =>
      let (w1, d1) := step w e in
      let (w2, d2) := run w1 es' in
      (w2, d1 ++ d2)
  end.

(* init(elementId): [elem] is the size of the element found, if any, and
   [context] tells whether canvas.getContext('2d') gave a context.  A
   new canvas element is 300 by 150.  The result is the state the
   listeners work on, when init gets as far as binding them.  [None]
   stands for both early exits: no element, where the script logs an error
   and touches nothing, and no 2D context, where the canvas has been
   created, sized and appended by then, but no listener is bound and no
   frame is requested, so that nothing ever runs on it. *)
Definition init (elem : option (num * num)) (context : bool) : option (World num) :=
  match elem with
  | Some (offsetWidth, offsetHeight) =>
      let w0 := mkWorld [] (#300) (#150) None [] false None false false [] [] false 0 in
      let w1 := sizeCanvas offsetWidth offsetHeight w0 in
      if context then Some (initParticleNetwork w1) else None
  | None => None
  end.

(** *** Names for parts of the functions above *)

(* The fade-in step of updateParticle. *)
Definition fade (o : num) : num :=
  if o <? #1 then o + #1 / #100 else #1.

(* The particle createParticle builds in world [w]. *)
Definition created (overwriteX overwriteY : option num) (w : World num) : Particle num :=
  let r := fun k => rand (k + randomCalls w) in
  mkParticle
    (#0)
    (or_else overwriteX (r 0%nat * canvas_width w))
    (or_else overwriteY (r 1%nat * canvas_height w))
    (Math_round (r 2%nat * (#5 / #2 - #3 / #2) + #3 / #2))
    match as_index (Math_floor (r 3%nat * of_nat (length (Options.particleColors opts)))) with
    | Some i => Options.particleColors opts !! i
    | None => None
    end
    (Velocity.mk ((r 4%nat - #1 / #2) * Options.velocity opts)
                 ((r 5%nat - #1 / #2) * Options.velocity opts)).

End Program.

(** ** Names for the parts of the line loop *)

Section LineParts.
Context {num : Type} `{Number num}.
Variable opts : Options.t num.
Local Open Scope js_scope.




End LineParts.

(** ** debounce, with the timeouts it sets and clears *)

(* The closure debounce(mainFunction, delay) returns, with the part of the
   browser's table of timeouts it works on; the timeouts are numbered in
   the order in which the closure sets them.  setTimeout hands out an
   identifier not used before and records the timeout as pending;
   clearTimeout removes a pending timeout and does nothing for undefined
   or for a timeout no longer pending; when the delay of a pending timeout
   has passed, the timeout leaves the table and its callback runs
   mainFunction. *)
Module Debounced.

Record t : Type := mk {
  timer : option nat;   (* let timer; [None] is undefined *)
  next_id : nat;        (* the identifier the next setTimeout returns *)
  pending : list nat;   (* the timeouts set and neither cleared nor expired *)
  mainCalls : nat       (* the calls of mainFunction so far *)
}.

(* debounce(mainFunction, delay): nothing is pending, timer is undefined *)
Definition start (k : nat) : t := mk None k [] 0.

Definition clearTimeout (id : option nat) (d : t) : t :=
  match id with
  | Some i =>
      mk (timer d) (next_id d)
        (List.filter (fun k => negb (k =? i)) (pending d)) (mainCalls d)
  | None => d
  end.

Definition setTimeout (d : t) : nat * t :=
  (next_id d, mk (timer d) (S (next_id d)) (pending d ++ [next_id d]) (mainCalls d)).

(* The returned function:
   clearTimeout(timer); timer = setTimeout(() => mainFunction(), delay) *)
Definition call (d : t) : t :=
  let d1 := clearTimeout (timer d) d in
  let (id, d2) := setTimeout d1 in
  mk (Some id) (next_id d2) (pending d2) (mainCalls d2).

(* The delay of timeout [id] has passed. *)
Definition expire (id : nat) (d : t) : t :=
  if existsb (Nat.eqb id) (pending d)
  then mk (timer d) (next_id d)
         (List.filter (fun k => negb (k =? id)) (pending d)) (S (mainCalls d))
  else d.

Inductive Action : Type :=
| called               (* the returned function is called *)
| expired (id : nat).  (* the delay of timeout [id] has passed *)

Definition act (d : t) (e : Action) : t :=
  match e with
  | called => call d
  | expired id => expire id d
  end.

Definition acts (d : t) (es : list Action) : t := fold_left act es d.

(* A timeout is pending. *)
Definition armed (d : t) : bool :=
  match pending d with [] => false | _ => true end.

(* At most one timeout is pending, and it is the one [timer] names. *)
Definition ok (d : t) : Prop :=
  pending d = [] \/
  exists id, timer d = Some id /\ pending d = [id] /\ (id < next_id d)%nat.

End Debounced.

(** ** The renderer of the specification *)

(* The renderer the specification compares with: a pair is tested against
   netLineDistance by its Euclidean distance only. *)
Definition connection_reference {num} `{Number num} (opts : Options.t num)
    (p1 p2 : Particle num) : list (Draw num) :=
  let distance :=
    Math_sqrt (Math_pow (x p1 - x p2) 2 + Math_pow (y p1 - y p2) 2)%J in
  if (distance >? Options.netLineDistance opts)%J then []
  else
    [ beginPath;
      strokeStyle (Options.netLineColor opts);
      globalAlpha
        (((Options.netLineDistance opts - distance)
          / Options.netLineDistance opts) * opacity p1 * opacity p2)%J;
      lineWidth (#7 / #10)%J;
      moveTo (x p1) (y p1);
      lineTo (x p2) (y p2);
      stroke ].

Definition drawConnections_reference {num} `{Number num} (opts : Options.t num)
    (w : World num) : list (Draw num) :=
  flat_map
    (fun ij : nat * nat =>
       match particle_at w (fst ij), particle_at w (snd ij) with
       | Some p1, Some p2 => connection_reference opts p1 p2
       | _, _ => []
       end)
    (pairs (length (particles w))).

(** ** Predicates on the store *)

(* [w'] has the store of [w] followed by the references of the particles
   allocated in between, and nothing else. *)
Definition grows {num} (w w' : World num) : Prop :=
  exists k,
    length (heap w') = (length (heap w) + k)%nat /\
    particles w' = particles w ++ seq (length (heap w)) k.

(* No reference occurs twice in the store and all of them are allocated. *)
Definition store_ok {num} (w : World num) : Prop :=
  NoDup (particles w) /\
  forall r, In r (particles w) -> (r < length (heap w))%nat.

(* The interaction particle is in the store whenever the reference is
   set. *)
Definition tracked {num} (w : World num) : Prop :=
  forall r, interactionParticle w = Some r -> In r (particles w).

(* The interaction particle, when the reference is set, is an allocated
   object. *)
Definition allocated {num} (w : World num) : Prop :=
  forall r, interactionParticle w = Some r -> (r < length (heap w))%nat.

(* [h'] still holds every particle of [h], each with the radius and the
   color it has in [h]. *)
Definition keeps_looks {num} (h h' : list (Particle num)) : Prop :=
  forall r p, h !! r = Some p ->
    exists p', h' !! r = Some p' /\
               radius p' = radius p /\ particleColor p' = particleColor p.

(* The state of the drawing surface and of the loop. *)
Definition surface {num} (w : World num) : num * num * bool * bool :=
  (canvas_width w, canvas_height w, animationFrame w, resizeTimer w).

(* Events other than the expiry of the debounce timer. *)
Definition not_resizeFires {num} (e : Event (num := num)) : Prop :=
  forall ow oh, e <> resizeFires ow oh.

Definition is_fill {num} (d : Draw num) : bool :=
  match d with fill => true | _ => false end.

Definition is_stroke {num} (d : Draw num) : bool :=
  match d with stroke => true | _ => false end.

(* The number of calls of one kind in a list of draw calls. *)
Definition calls {num} (kind : Draw num -> bool) (ds : list (Draw num)) : nat :=
  length (List.filter kind ds).

(* Both dimensions of the canvas are nonzero numbers. *)
Definition sized {num} `{Number num} (w : World num) : Prop :=
  truthy (canvas_width w) = true /\ truthy (canvas_height w) = true.

(* n taps in a row at the same point. *)
Fixpoint taps {num} (cx cy : num) (i n : nat) : list (Event (num := num)) :=
  match n with
  | O => []
  | S k => touchstart cx cy :: touchFires i :: taps cx cy i k
  end.

(* The real number a binary64 number stands for (0 for what is not finite). *)
Definition exact (f : float) : R :=
  match Prim2SF f with
  | S754_finite s m e =>
      (IZR (if s then Z.neg m else Z.pos m)
       * (if (0 <=? e)%Z then IZR (2 ^ e) else / IZR (2 ^ (- e))))%R
  | _ => 0%R
  end.


(** ** Sample data *)

(* A store of two ordinary particles and no interaction particle. *)
Definition world_idle : World float :=
  mkWorld
    [ mkParticle 1%float 10%float 10%float 2%float (Some "#aaa"%string)
        (Velocity.mk 0.25%float 0.25%float);
      mkParticle 1%float 20%float 20%float 2%float (Some "#aaa"%string)
        (Velocity.mk 0.25%float 0.25%float) ]
    800%float 600%float None [0%nat; 1%nat] true None false false [] [] false 12.

Definition rand_half : nat -> float := fun _ => 0.5%float.

(* The script's options with the palette emptied. *)
Definition options_no_colors : Options.t float :=
  Options.mk (#1 / #2)%J (#15000)%J (#200)%J "#929292"%string [].

(* The state init leaves for a container of 800 by 600. *)
Definition world_800x600 : World float :=
  mkWorld [] 800%float 600%float None [] true (Some (mkSpawn 0 32%float))
    false false [] [] false 0.

(* [world_idle] with its second particle referenced as the interaction
   particle. *)
Definition world_pointer : World float :=
  set_interactionParticle (Some 1%nat) world_idle.

(* The script's options with the speed set to zero. *)
Definition options_still : Options.t float :=
  Options.mk 0%float (#15000)%J (#200)%J "#929292"%string ["#aaa"%string].

(* The largest binary64 number below 1. *)
Definition rand_below_one : nat -> float := fun _ => 0x1.fffffffffffffp-1%float.


Local Open Scope R_scope.

(* The exact distance between two particles. *)
Definition euclid (p1 p2 : Particle R) : R :=
  R_sqrt.sqrt ((x p1 - x p2) ^ 2 + (y p1 - y p2) ^ 2).

(* Two faded-in particles at distance 5, with netLineDistance set to 5. *)
Definition opts_5 : Options.t R :=
  Options.mk (1 / 2) 15000 5 "#929292"%string ["#aaa"%string].
Definition particle_a : Particle R :=
  mkParticle 1 0 0 2 (Some "#aaa"%string) (Velocity.mk 0 0).
Definition particle_b : Particle R :=
  mkParticle 1 3 4 2 (Some "#aaa"%string) (Velocity.mk 0 0).
Definition world_ab : World R :=
  mkWorld [particle_a; particle_b] 800 600 None [0%nat; 1%nat]
    true None false false [] [] false 0.

(* A particle one step beyond the right and the top edge of the band of a
   800 by 600 canvas. *)
Definition particle_out : Particle R :=
  mkParticle 1 901 (-101) 2 (Some "#aaa"%string) (Velocity.mk 2 (-3)).



Definition rand_middle : nat -> R := fun _ => 1 / 2.

Local Close Scope R_scope.

(** * Properties *)

(** ** Facts that hold in every reading of the numbers *)

Section Generic.
Context {num : Type} `{Number num}.
Variable rand : nat -> num.
Variable opts : Options.t num.

Local Open Scope js_scope.

Lemma opacity_updateParticle cw ch (p : Particle num) :
  opacity (updateParticle cw ch p) = fade (opacity p).
Proof. reflexivity. Qed.

Lemma opacity_iter_updateParticle cw ch n (p : Particle num) :
  opacity (Nat.iter n (updateParticle cw ch) p) = Nat.iter n fade (opacity p).
Proof.
  induction n as [|n IH]; [reflexivity|].
  now rewrite !Nat.iter_succ, opacity_updateParticle, IH.
Qed.

(** *** The factory allocates one cell and touches nothing else *)

Lemma createParticle_eq ox oy (w : World num) :
  createParticle rand opts ox oy w =
  (length (heap w),
   set_heap (heap w ++ [created rand opts ox oy w]) (set_randomCalls (6 + randomCalls w) w)).
Proof. reflexivity. Qed.

Lemma spawnAt_eq ox oy (w : World num) :
  spawnAt rand opts ox oy w =
  push (length (heap w))
    (set_heap (heap w ++ [created rand opts (Some ox) (Some oy) w])
       (set_randomCalls (6 + randomCalls w) w)).
Proof. reflexivity. Qed.

(** *** The throttled spawner *)

Lemma spawnTick_create (w : World num) c q :
  createIntervalId w = Some (mkSpawn c q) ->
  (of_nat c <? q - #1) = true ->
  spawnTick rand opts w =
  set_createIntervalId (Some (mkSpawn (S c) q))
    (push (length (heap w))
       (set_heap (heap w ++ [created rand opts None None w])
          (set_randomCalls (6 + randomCalls w) w))).
Proof.
  intros Ht Hc. unfold spawnTick. rewrite Ht. cbn [counter quantity].
  rewrite Hc, createParticle_eq. reflexivity.
Qed.

Lemma spawnTick_cancel (w : World num) c q :
  createIntervalId w = Some (mkSpawn c q) ->
  (of_nat c <? q - #1) = false ->
  spawnTick rand opts w = set_createIntervalId None w.
Proof.
  intros Ht Hc. unfold spawnTick. rewrite Ht. cbn [counter quantity].
  now rewrite Hc.
Qed.

Lemma spawnTick_idle (w : World num) :
  createIntervalId w = None -> spawnTick rand opts w = w.
Proof. intros Ht. unfold spawnTick. now rewrite Ht. Qed.

(* While the guard of the callback holds, n ticks append n fresh
   particles and leave the timer armed. *)
Lemma spawnTicks_running n : forall (w : World num) c q,
  createIntervalId w = Some (mkSpawn c q) ->
  (forall k, (k < n)%nat -> (of_nat (c + k) <? q - #1) = true) ->
  let w' := Nat.iter n (spawnTick rand opts) w in
  createIntervalId w' = Some (mkSpawn (c + n) q) /\
  particles w' = particles w ++ seq (length (heap w)) n /\
  length (heap w') = (length (heap w) + n)%nat /\
  canvas_width w' = canvas_width w /\
  canvas_height w' = canvas_height w /\
  interactionParticle w' = interactionParticle w.
Proof.
  induction n as [|n IH]; intros w c q Ht Hk; cbn zeta.
  - cbn [Nat.iter nat_rect seq]. rewrite Nat.add_0_r, app_nil_r.
    repeat split; [assumption | lia].
  - rewrite Nat.iter_succ.
    destruct (IH w c q Ht) as (Ht' & Hp & Hh & Hcw & Hch & Hip).
    { intros k Hlt. apply Hk. lia. }
    rewrite (spawnTick_create _ _ _ Ht') by (apply Hk; lia).
    cbn [createIntervalId particles heap canvas_width canvas_height
         interactionParticle set_createIntervalId push set_particles
         set_heap set_randomCalls].
    rewrite Hp, Hh, length_app, seq_S, app_assoc, Nat.add_succ_r.
    cbn [length]. repeat split; try assumption. lia.
Qed.

(* The loop of createParticles(false): if n is the first value of i at
   which the guard fails, n rounds suffice and n particles are appended. *)
Lemma spawnLoop_count n : forall fuel i q (w : World num),
  (forall k, (k < n)%nat -> (of_nat (i + k) <? q) = true) ->
  (of_nat (i + n) <? q) = false ->
  (n <= fuel)%nat ->
  exists w',
    spawnLoop rand opts fuel i q w = Some w' /\
    particles w' = particles w ++ seq (length (heap w)) n.
Proof.
  induction n as [|n IH]; intros fuel i q w Hk Hn Hf.
  - exists w. rewrite Nat.add_0_r in Hn.
    destruct fuel; cbn [spawnLoop]; rewrite Hn, app_nil_r; split; reflexivity.
  - destruct fuel as [|fuel]; [lia|].
    assert (H0 : (of_nat i <? q) = true).
    { rewrite <- (Nat.add_0_r i). apply Hk. lia. }
    cbn [spawnLoop]. rewrite H0, createParticle_eq.
    destruct (IH fuel (S i) q
                (push (length (heap w))
                   (set_heap (heap w ++ [created rand opts None None w])
                      (set_randomCalls (6 + randomCalls w) w))))
      as (w' & Hw' & Hp).
    + intros k Hlt. replace (S i + k)%nat with (i + S k)%nat by lia.
      apply Hk. lia.
    + replace (S i + n)%nat with (i + S n)%nat by lia. exact Hn.
    + lia.
    + exists w'. split; [exact Hw'|]. rewrite Hp.
      cbn [particles heap push set_particles set_heap set_randomCalls seq].
      rewrite length_app, <- app_assoc. cbn [length app].
      now rewrite Nat.add_1_r.
Qed.

(* The whole run of an interval whose counter is 0: if n is the first
   counter value at which the guard fails, the timer is still live after
   n ticks, is cleared by tick n + 1, and exactly n particles were
   appended, all of them new. *)
Lemma spawn_run_count n q (w : World num) :
  createIntervalId w = Some (mkSpawn 0 q) ->
  (forall k, (k < n)%nat -> (of_nat k <? q - #1) = true) ->
  (of_nat n <? q - #1) = false ->
  createIntervalId (Nat.iter n (spawnTick rand opts) w) <> None /\
  createIntervalId (Nat.iter (S n) (spawnTick rand opts) w) = None /\
  particles (Nat.iter (S n) (spawnTick rand opts) w)
    = particles w ++ seq (length (heap w)) n.
Proof.
  intros Hw Hk Hn.
  destruct (spawnTicks_running n w 0%nat q Hw Hk) as (Ht & Hp & _).
  rewrite Nat.iter_succ, (spawnTick_cancel _ _ _ Ht Hn), Ht.
  repeat split; [discriminate|]. exact Hp.
Qed.

(* The same for the interval started by createParticles(true). *)
Lemma initial_spawn_count n (w : World num) :
  let q := canvas_width w * canvas_height w / Options.density opts in
  (forall k, (k < n)%nat -> (of_nat k <? q - #1) = true) ->
  (of_nat n <? q - #1) = false ->
  exists w0,
    createParticles rand opts 0 true w = Some w0 /\
    createIntervalId (Nat.iter n (spawnTick rand opts) w0) <> None /\
    createIntervalId (Nat.iter (S n) (spawnTick rand opts) w0) = None /\
    particles (Nat.iter (S n) (spawnTick rand opts) w0)
      = particles w ++ seq (length (heap w)) n.
Proof.
  intros q Hk Hn. eexists. split; [reflexivity|].
  exact (spawn_run_count n q (set_createIntervalId _ w) eq_refl Hk Hn).
Qed.
End Generic.

(** ** The store and the interaction particle *)

Section Store.
Context {num : Type} `{Number num}.
Variable rand : nat -> num.
Variable opts : Options.t num.

Lemma indexOf_Some (l : list ref) (r : ref) (i : nat) :
  indexOf l r = Some i <->
  l !! i = Some r /\ forall j, (j < i)%nat -> l !! j <> Some r.
Proof.
  unfold indexOf. split.
  - intros Hf. destruct (list_find _ l) as [[i' r']|] eqn:Hfind; [|discriminate].
    cbn in Hf. injection Hf as ->.
    apply list_find_Some in Hfind as (Hl & -> & Hmin).
    split; [exact Hl|]. intros j Hj Hlj. exact (Hmin j r Hlj Hj eq_refl).
  - intros (Hl & Hmin).
    assert (Hfind : list_find (fun r' => r' = r) l = Some (i, r)).
    { apply list_find_Some. split; [exact Hl|]. split; [reflexivity|].
      intros j y Hlj Hj ->. exact (Hmin j Hj Hlj). }
    now rewrite Hfind.
Qed.

Lemma indexOf_None (l : list ref) (r : ref) :
  indexOf l r = None <-> ~ In r l.
Proof.
  unfold indexOf. destruct (list_find _ l) as [[i r']|] eqn:Hfind.
  - apply list_find_Some in Hfind as (Hl & -> & _). split; [discriminate|].
    intros Hn. exfalso. apply Hn, list_elem_of_In, list_elem_of_lookup. eauto.
  - split; [|reflexivity]. intros _ Hin.
    apply list_find_None in Hfind. rewrite Forall_forall in Hfind.
    apply list_elem_of_In in Hin. exact (Hfind r Hin eq_refl).
Qed.

(* Pointer-leave with the interaction particle in the store: its first
   occurrence is spliced out and the reference is cleared. *)
Lemma removeInteractionParticle_live (w : World num) (r : ref) :
  interactionParticle w = Some r ->
  In r (particles w) ->
  exists i,
    particles w !! i = Some r /\
    particles (removeInteractionParticle w) = delete i (particles w) /\
    length (particles (removeInteractionParticle w))
      = pred (length (particles w)) /\
    interactionParticle (removeInteractionParticle w) = None /\
    heap (removeInteractionParticle w) = heap w.
Proof.
  intros Hip Hin. unfold removeInteractionParticle. rewrite Hip.
  destruct (indexOf (particles w) r) as [i|] eqn:Hidx.
  - apply indexOf_Some in Hidx as (Hl & _). exists i.
    cbn [particles interactionParticle heap set_particles set_interactionParticle].
    repeat split; try assumption.
    rewrite length_delete by eauto. lia.
  - apply indexOf_None in Hidx. contradiction.
Qed.

(* Pointer-leave with a reference that is not in the store changes
   nothing: the reference stays set. *)
Lemma removeInteractionParticle_dangling (w : World num) (r : ref) :
  interactionParticle w = Some r ->
  ~ In r (particles w) ->
  removeInteractionParticle w = w.
Proof.
  intros Hip Hin. unfold removeInteractionParticle. rewrite Hip.
  apply indexOf_None in Hin. now rewrite Hin.
Qed.

Lemma removeInteractionParticle_idempotent (w : World num) :
  removeInteractionParticle (removeInteractionParticle w)
    = removeInteractionParticle w.
Proof.
  unfold removeInteractionParticle at 2 3.
  destruct (interactionParticle w) as [r|] eqn:Hip.
  - destruct (indexOf (particles w) r) as [i|] eqn:Hidx.
    + reflexivity.
    + unfold removeInteractionParticle. now rewrite Hip, Hidx.
  - unfold removeInteractionParticle. now rewrite Hip.
Qed.

(* Pointer-move without an interaction particle creates one, appends it
   to the store and moves it under the pointer. *)
Lemma moveInteractionParticle_creates px py (w : World num) :
  interactionParticle w = None ->
  let w' := moveInteractionParticle rand opts px py w in
  interactionParticle w' = Some (length (heap w)) /\
  particles w' = particles w ++ [length (heap w)] /\
  exists p, heap w' = heap w ++ [p] /\ x p = px /\ y p = py /\
            velocity p = Velocity.mk (of_Z 0) (of_Z 0).
Proof.
  intros Hip. unfold moveInteractionParticle. rewrite Hip.
  unfold createInteractionParticle, bind. rewrite createParticle_eq.
  cbn [snd interactionParticle particles heap push set_particles
       set_interactionParticle set_heap set_randomCalls].
  repeat split. eexists.
  rewrite !alter_app_r_alt by reflexivity.
  rewrite !Nat.sub_diag. cbn [alter list_alter].
  repeat split.
Qed.

(* Pointer-move with the reference set only writes the coordinates. *)
Lemma moveInteractionParticle_keeps px py (w : World num) (r : ref) :
  interactionParticle w = Some r ->
  let w' := moveInteractionParticle rand opts px py w in
  interactionParticle w' = Some r /\ particles w' = particles w.
Proof.
  intros Hip. unfold moveInteractionParticle. rewrite Hip. cbn zeta.
  rewrite Hip. split; [exact Hip | reflexivity].
Qed.

(** *** What the events do to the store *)

Lemma grows_refl (w : World num) : grows w w.
Proof. exists 0%nat. cbn [seq]. rewrite Nat.add_0_r, app_nil_r. split; reflexivity. Qed.

Lemma grows_same (w w' : World num) :
  length (heap w') = length (heap w) -> particles w' = particles w -> grows w w'.
Proof.
  intros Hh Hp. exists 0%nat. cbn [seq]. rewrite Nat.add_0_r, app_nil_r. now split.
Qed.

Lemma grows_trans (w1 w2 w3 : World num) :
  grows w1 w2 -> grows w2 w3 -> grows w1 w3.
Proof.
  intros (k1 & Hh1 & Hp1) (k2 & Hh2 & Hp2). exists (k1 + k2)%nat. split.
  - lia.
  - rewrite Hp2, Hp1, Hh1, <- app_assoc, seq_app. reflexivity.
Qed.

Lemma grows_fresh (w w' : World num) (r : ref) :
  grows w w' -> In r (particles w') ->
  In r (particles w) \/ (length (heap w) <= r < length (heap w'))%nat.
Proof.
  intros (k & Hh & Hp) Hin. rewrite Hp in Hin.
  apply in_app_or in Hin as [Hin|Hin]; [now left|].
  right. apply in_seq in Hin. lia.
Qed.

Lemma grows_store_ok (w w' : World num) :
  grows w w' -> store_ok w -> store_ok w'.
Proof.
  intros (k & Hh & Hp) (Hnd & Hlt). split.
  - rewrite Hp. apply NoDup_app. split; [exact Hnd|]. split; [|apply NoDup_seq].
    intros r Hr Hs. apply list_elem_of_In in Hr, Hs.
    apply Hlt in Hr. apply in_seq in Hs. lia.
  - intros r Hr. rewrite Hp in Hr. apply in_app_or in Hr as [Hr|Hr].
    + apply Hlt in Hr. lia.
    + apply in_seq in Hr. lia.
Qed.

Lemma spawnAt_grows ox oy (w : World num) : grows w (spawnAt rand opts ox oy w).
Proof.
  rewrite spawnAt_eq. exists 1%nat.
  cbn [heap particles push set_particles set_heap set_randomCalls seq].
  rewrite length_app. split; reflexivity.
Qed.

Lemma spawnTick_grows (w : World num) : grows w (spawnTick rand opts w).
Proof.
  destruct (createIntervalId w) as [[c q]|] eqn:Ht.
  - destruct (nlt (of_nat c) (nsub q (of_Z 1))) eqn:Hc.
    + rewrite (spawnTick_create _ _ _ _ _ Ht Hc). exists 1%nat.
      cbn [heap particles push set_particles set_heap set_randomCalls
           set_createIntervalId seq].
      rewrite length_app. split; reflexivity.
    + rewrite (spawnTick_cancel _ _ _ _ _ Ht Hc). now apply grows_same.
  - rewrite (spawnTick_idle _ _ _ Ht). apply grows_refl.
Qed.

Lemma iter_grows (f : World num -> World num) (n : nat) (w : World num) :
  (forall w0, grows w0 (f w0)) -> grows w (Nat.iter n f w).
Proof.
  intros Hf. induction n as [|n IH]; [apply grows_refl|].
  rewrite Nat.iter_succ. eapply grows_trans; [exact IH | apply Hf].
Qed.

Lemma moveInteractionParticle_grows px py (w : World num) :
  grows w (moveInteractionParticle rand opts px py w).
Proof.
  destruct (interactionParticle w) as [r|] eqn:Hip.
  - unfold moveInteractionParticle. rewrite Hip. cbn zeta. rewrite Hip.
    apply grows_same; cbn [heap particles set_heap]; [apply length_alter | reflexivity].
  - destruct (moveInteractionParticle_creates px py w Hip)
      as (_ & Hp & p & Hh & _).
    exists 1%nat. rewrite Hh, length_app. split; [reflexivity | exact Hp].
Qed.

Lemma mouseTick_grows i (w : World num) : grows w (mouseTick rand opts i w).
Proof.
  unfold mouseTick. destruct (mouseIntervals w !! i) as [t|]; [|apply grows_refl].
  destruct (mouseIsDown w); [|now apply grows_same].
  cbn zeta. eapply grows_trans; [|now apply grows_same].
  apply iter_grows. intros w0.
  destruct (interactionParticle w0) as [r|]; [|apply grows_refl].
  destruct (heap w0 !! r) as [ip|]; [apply spawnAt_grows | apply grows_refl].
Qed.

Lemma touchTimeout_grows i (w : World num) : grows w (touchTimeout rand opts i w).
Proof.
  unfold touchTimeout.
  destruct (touchTimeouts w !! i) as [[cx cy]|]; [|apply grows_refl].
  cbn zeta.
  apply (grows_trans _ (set_touchTimeouts (delete i (touchTimeouts w)) w));
    [now apply grows_same|].
  destruct (negb _); [|apply grows_refl].
  apply iter_grows. intros w0. apply spawnAt_grows.
Qed.

Lemma drawParticles_fold_length cw ch (l : list ref) :
  forall (h : list (Particle num)) (d : list (Draw num)),
  length (fst (fold_left
    (fun (acc : list (Particle num) * list (Draw num)) (particle : ref) =>
       let h' := alter (updateParticle cw ch) particle (fst acc) in
       (h', snd acc ++ from_option drawParticle [] (h' !! particle)))
    l (h, d))) = length h.
Proof.
  induction l as [|r l IH]; intros h d; [reflexivity|].
  cbn [fold_left fst snd]. rewrite IH. apply length_alter.
Qed.

Lemma drawParticles_length cw ch (l : list ref) (h : list (Particle num)) :
  length (fst (drawParticles cw ch l h)) = length h.
Proof. apply drawParticles_fold_length. Qed.

Lemma updateParticleNetwork_grows (w : World num) :
  grows w (fst (updateParticleNetwork opts w)).
Proof.
  unfold updateParticleNetwork.
  pose proof (drawParticles_length (canvas_width w) (canvas_height w)
                (particles w) (heap w)) as Hlen.
  destruct (drawParticles _ _ _ _) as [h dots]. cbn [fst] in *.
  destruct (strict_eq _ _); apply grows_same;
    cbn [heap particles set_heap set_animationFrame];
    first [exact Hlen | reflexivity].
Qed.

Lemma removeInteractionParticle_subset (w : World num) (r : ref) :
  In r (particles (removeInteractionParticle w)) -> In r (particles w).
Proof.
  unfold removeInteractionParticle.
  destruct (interactionParticle w) as [r0|]; [|easy].
  destruct (indexOf (particles w) r0) as [i|]; [|easy].
  cbn [particles set_particles set_interactionParticle]. intros Hin.
  apply list_elem_of_In. apply list_elem_of_In in Hin.
  exact (list_elem_of_delete_inv _ _ _ Hin).
Qed.

Lemma removeInteractionParticle_heap (w : World num) :
  heap (removeInteractionParticle w) = heap w.
Proof.
  unfold removeInteractionParticle.
  destruct (interactionParticle w) as [r0|]; [|easy].
  destruct (indexOf (particles w) r0) as [i|]; easy.
Qed.

Lemma removeInteractionParticle_store_ok (w : World num) :
  store_ok w -> store_ok (removeInteractionParticle w).
Proof.
  intros (Hnd & Hlt). unfold removeInteractionParticle.
  destruct (interactionParticle w) as [r|]; [|now split].
  destruct (indexOf (particles w) r) as [i|]; [|now split].
  cbn [store_ok]. unfold store_ok.
  cbn [particles heap set_particles set_interactionParticle].
  assert (Hsub : sublist (delete i (particles w)) (particles w))
    by apply sublist_delete.
  split.
  - eapply sublist_NoDup; eassumption.
  - intros r' Hr'. apply Hlt, list_elem_of_In.
    apply list_elem_of_In in Hr'. exact (list_elem_of_delete_inv _ _ _ Hr').
Qed.

(* What one event does to the store: either it only appends new
   references, or it removes the interaction particle, or it is the
   resize handler, which empties the store. *)
Lemma step_cases (w : World num) (e : Event) :
  grows w (fst (step rand opts w e)) \/
  fst (step rand opts w e) = removeInteractionParticle w \/
  fst (step rand opts w e)
    = removeInteractionParticle (set_touchIsMoving false w) \/
  (particles (fst (step rand opts w e)) = [] /\
   heap (fst (step rand opts w e)) = heap w).
Proof.
  destruct e; cbn [step fst].
  - left. apply moveInteractionParticle_grows.
  - left. eapply grows_trans; [|apply moveInteractionParticle_grows].
    now apply grows_same.
  - left. now apply grows_same.
  - left. now apply grows_same.
  - right. left. reflexivity.
  - left. now apply grows_same.
  - right. right. left. reflexivity.
  - left. now apply grows_same.
  - destruct (resizeTimer w); [|left; apply grows_refl].
    right. right. right. unfold onResize, sizeCanvas. cbn [fst].
    destruct (truthy offsetWidth && truthy offsetHeight); split; reflexivity.
  - left. apply spawnTick_grows.
  - left. apply mouseTick_grows.
  - left. apply touchTimeout_grows.
  - destruct (animationFrame w); [|left; apply grows_refl].
    left. eapply grows_trans; [|apply updateParticleNetwork_grows].
    now apply grows_same.
Qed.

Lemma step_store_ok (w : World num) (e : Event) :
  store_ok w -> store_ok (fst (step rand opts w e)).
Proof.
  intros Hok. destruct (step_cases w e) as [Hg|[->|[->|(Hp & Hh)]]].
  - eapply grows_store_ok; eassumption.
  - now apply removeInteractionParticle_store_ok.
  - now apply removeInteractionParticle_store_ok.
  - split; rewrite Hp; [apply NoDup_nil_2 | intros r []].
Qed.

Lemma run_cons (w : World num) (e : Event) (es : list Event) :
  fst (run rand opts w (e :: es)) = fst (run rand opts (fst (step rand opts w e)) es).
Proof.
  cbn [run]. destruct (step rand opts w e) as [w1 d1]. cbn [fst].
  destruct (run rand opts w1 es) as [w2 d2]. reflexivity.
Qed.

Lemma run_store_ok (es : list Event) : forall w : World num,
  store_ok w -> store_ok (fst (run rand opts w es)).
Proof.
  induction es as [|e es IH]; intros w Hok; [exact Hok|].
  rewrite run_cons. apply IH, step_store_ok, Hok.
Qed.

(* References only ever enter the store when they are new. *)
Lemma step_fresh (w : World num) (e : Event) (r : ref) :
  In r (particles (fst (step rand opts w e))) ->
  In r (particles w) \/ (length (heap w) <= r)%nat.
Proof.
  intros Hin. destruct (step_cases w e) as [Hg|[Heq|[Heq|(Hp & Hh)]]].
  - destruct (grows_fresh _ _ _ Hg Hin) as [Hold|Hnew]; [now left | right; lia].
  - left. rewrite Heq in Hin. revert Hin. apply removeInteractionParticle_subset.
  - left. rewrite Heq in Hin.
    apply removeInteractionParticle_subset in Hin. exact Hin.
  - rewrite Hp in Hin. destruct Hin.
Qed.

Lemma step_heap_length (w : World num) (e : Event) :
  (length (heap w) <= length (heap (fst (step rand opts w e))))%nat.
Proof.
  destruct (step_cases w e) as [(k & Hh & _)|[Heq|[Heq|(Hp & Hh)]]].
  - lia.
  - rewrite Heq, removeInteractionParticle_heap. lia.
  - rewrite Heq, removeInteractionParticle_heap. cbn [heap set_touchIsMoving]. lia.
  - rewrite Hh. lia.
Qed.

(* Whatever is in the store at a later time is in it now or is allocated
   from now on. *)
Lemma run_fresh (es : list Event) : forall (w : World num) (r : ref),
  In r (particles (fst (run rand opts w es))) ->
  In r (particles w) \/ (length (heap w) <= r)%nat.
Proof.
  induction es as [|e es IH]; intros w r Hin; [now left|].
  rewrite run_cons in Hin. apply IH in Hin as [Hin|Hge].
  - now apply step_fresh in Hin.
  - right. pose proof (step_heap_length w e). lia.
Qed.

Lemma resizeFires_empties (w : World num) (ow oh : num) :
  resizeTimer w = true ->
  particles (fst (step rand opts w (resizeFires ow oh))) = [] /\
  heap (fst (step rand opts w (resizeFires ow oh))) = heap w.
Proof.
  intros Ht. cbn [step]. rewrite Ht. unfold onResize, sizeCanvas. cbn [fst].
  destruct (truthy ow && truthy oh); split; reflexivity.
Qed.

(* No particle that existed before the debounced resize handler ran is in
   the store at any time after it. *)
Lemma resize_leaves_no_residue (w : World num) (ow oh : num)
    (es : list Event) (r : ref) :
  resizeTimer w = true ->
  In r (particles (fst (run rand opts w (resizeFires ow oh :: es)))) ->
  (length (heap w) <= r)%nat.
Proof.
  intros Ht Hin. rewrite run_cons in Hin.
  destruct (resizeFires_empties w ow oh Ht) as (Hp & Hh).
  apply run_fresh in Hin as [Hin|Hge].
  - rewrite Hp in Hin. destruct Hin.
  - now rewrite Hh in Hge.
Qed.

Lemma grows_tracked (w w' : World num) :
  grows w w' -> interactionParticle w' = interactionParticle w ->
  tracked w -> tracked w'.
Proof.
  intros (k & _ & Hp) Hip Htr r Hr. rewrite Hp. apply in_or_app. left.
  apply Htr. now rewrite <- Hip.
Qed.

Lemma spawnAt_interactionParticle ox oy (w : World num) :
  interactionParticle (spawnAt rand opts ox oy w) = interactionParticle w.
Proof. now rewrite spawnAt_eq. Qed.

Lemma iter_interactionParticle (f : World num -> World num) (n : nat) (w : World num) :
  (forall w0, interactionParticle (f w0) = interactionParticle w0) ->
  interactionParticle (Nat.iter n f w) = interactionParticle w.
Proof.
  intros Hf. induction n as [|n IH]; [reflexivity|].
  now rewrite Nat.iter_succ, Hf.
Qed.

Lemma removeInteractionParticle_tracked (w : World num) :
  tracked w -> tracked (removeInteractionParticle w).
Proof.
  intros Htr r. unfold removeInteractionParticle.
  destruct (interactionParticle w) as [r0|] eqn:Hip; [|now rewrite Hip].
  destruct (indexOf (particles w) r0) as [i|] eqn:Hidx.
  - cbn [interactionParticle set_particles set_interactionParticle]. discriminate.
  - apply indexOf_None in Hidx. exfalso. apply Hidx, Htr, Hip.
Qed.

(* Every event but the resize handler keeps the interaction particle in
   the store. *)
Lemma step_tracked (w : World num) (e : Event) :
  (forall ow oh, e <> resizeFires ow oh) ->
  tracked w -> tracked (fst (step rand opts w e)).
Proof.
  intros Hne Htr. destruct e; cbn [step fst].
  - intros r. destruct (interactionParticle w) as [r0|] eqn:Hip.
    + destruct (moveInteractionParticle_keeps offsetX offsetY w r0 Hip)
        as (Hip' & Hp').
      rewrite Hip', Hp'. intros [= <-]. now apply Htr.
    + destruct (moveInteractionParticle_creates offsetX offsetY w Hip)
        as (Hip' & Hp' & _).
      rewrite Hip', Hp'. intros [= <-]. apply in_or_app. right. now left.
  - intros r.
    destruct (interactionParticle (set_touchIsMoving true w)) as [r0|] eqn:Hip.
    + destruct (moveInteractionParticle_keeps clientX clientY _ r0 Hip)
        as (Hip' & Hp').
      rewrite Hip', Hp'. intros [= <-]. now apply Htr.
    + destruct (moveInteractionParticle_creates clientX clientY _ Hip)
        as (Hip' & Hp' & _).
      rewrite Hip', Hp'. intros [= <-]. apply in_or_app. right. now left.
  - exact Htr.
  - exact Htr.
  - now apply removeInteractionParticle_tracked.
  - exact Htr.
  - now apply removeInteractionParticle_tracked.
  - exact Htr.
  - exfalso. exact (Hne _ _ eq_refl).
  - eapply grows_tracked; [apply spawnTick_grows| |exact Htr].
    unfold spawnTick. destruct (createIntervalId w) as [t|]; [|reflexivity].
    destruct (nlt _ _); [|reflexivity]. now rewrite createParticle_eq.
  - eapply grows_tracked; [apply mouseTick_grows| |exact Htr].
    unfold mouseTick. destruct (mouseIntervals w !! i) as [t|]; [|reflexivity].
    destruct (mouseIsDown w); [|reflexivity].
    cbn [interactionParticle set_mouseIntervals].
    apply iter_interactionParticle. intros w0.
    destruct (interactionParticle w0) as [r0|] eqn:Hip0; [|exact Hip0].
    destruct (heap w0 !! r0); [|exact Hip0].
    now rewrite spawnAt_interactionParticle.
  - eapply grows_tracked; [apply touchTimeout_grows| |exact Htr].
    unfold touchTimeout.
    destruct (touchTimeouts w !! i) as [[cx cy]|]; [|reflexivity].
    cbn zeta. destruct (negb _); [|reflexivity].
    rewrite iter_interactionParticle; [reflexivity|].
    intros w0. apply spawnAt_interactionParticle.
  - destruct (animationFrame w); [|exact Htr].
    apply (grows_tracked (set_animationFrame false w));
      [apply updateParticleNetwork_grows | | exact Htr].
    unfold updateParticleNetwork.
    destruct (drawParticles _ _ _ _) as [h dots].
    destruct (strict_eq _ _); reflexivity.
Qed.

(* With the interaction particle tracked and the store free of
   duplicates, pointer movement leaves exactly one occurrence of it in the
   store, and pointer-leave removes exactly that entry and clears the
   reference. *)
Lemma pointer_move_then_leave (w : World num) (px py : num) :
  store_ok w -> tracked w ->
  let w1 := fst (step rand opts w (mousemove px py)) in
  let w2 := fst (step rand opts w1 mouseout) in
  (exists r, interactionParticle w1 = Some r /\
             count_occ Nat.eq_dec (particles w1) r = 1%nat) /\
  interactionParticle w2 = None /\
  length (particles w2) = pred (length (particles w1)) /\
  (forall r, In r (particles w2) <->
             In r (particles w1) /\ interactionParticle w1 <> Some r).
Proof.
  intros Hok Htr w1 w2.
  assert (Hok1 : store_ok w1) by (apply step_store_ok, Hok).
  assert (Htr1 : tracked w1).
  { apply step_tracked; [discriminate | exact Htr]. }
  assert (Hset : exists r, interactionParticle w1 = Some r).
  { subst w1. cbn [step fst].
    destruct (interactionParticle w) as [r0|] eqn:Hip.
    - exists r0.
      destruct (moveInteractionParticle_keeps px py w r0 Hip) as (Hk & _).
      exact Hk.
    - exists (length (heap w)).
      destruct (moveInteractionParticle_creates px py w Hip) as (Hk & _).
      exact Hk. }
  destruct Hset as (r & Hip1). pose proof (Htr1 r Hip1) as Hin1.
  destruct Hok1 as (Hnd1 & _).
  split.
  { exists r. split; [exact Hip1|].
    apply NoDup_ListNoDup in Hnd1.
    apply (proj1 (NoDup_count_occ' Nat.eq_dec (particles w1)) Hnd1 r Hin1). }
  destruct (removeInteractionParticle_live w1 r Hip1 Hin1)
    as (i & Hi & Hdel & Hlen & Hnone & _).
  subst w2. cbn [step fst]. split; [exact Hnone|]. split; [exact Hlen|].
  intros r'. rewrite Hdel, Hip1. split.
  - intros Hr'. apply list_elem_of_In in Hr'. split.
    + apply list_elem_of_In. exact (list_elem_of_delete_inv _ _ _ Hr').
    + intros [= ->].
      apply list_elem_of_lookup in Hr' as (j & Hj).
      destruct (decide (j < i)%nat) as [Hlt|Hge].
      * rewrite list_lookup_delete_lt in Hj by exact Hlt.
        pose proof (NoDup_lookup _ _ _ _ Hnd1 Hj Hi). lia.
      * rewrite list_lookup_delete_ge in Hj by lia.
        pose proof (NoDup_lookup _ _ _ _ Hnd1 Hj Hi). lia.
  - intros (Hr' & Hne). apply list_elem_of_In.
    apply list_elem_of_In, list_elem_of_lookup in Hr' as (j & Hj).
    apply list_elem_of_lookup.
    destruct (decide (j < i)%nat) as [Hlt|Hge].
    + exists j. now rewrite list_lookup_delete_lt.
    + assert (j <> i) by (intros ->; rewrite Hi in Hj; congruence).
      exists (pred j). rewrite list_lookup_delete_ge by lia.
      replace (S (pred j)) with j by lia. exact Hj.
Qed.

Lemma run_tracked (es : list Event) : forall w : World num,
  Forall (fun e => forall ow oh, e <> resizeFires ow oh) es ->
  tracked w -> tracked (fst (run rand opts w es)).
Proof.
  induction es as [|e es IH]; intros w Hes Htr; [exact Htr|].
  rewrite run_cons. inversion Hes as [|e' es' He Hes']; subst.
  apply IH; [exact Hes'|]. now apply step_tracked.
Qed.

(* Both invariants hold when init returns. *)
Lemma init_store_ok elem context (w : World num) :
  init rand opts elem context = Some w -> store_ok w /\ tracked w.
Proof.
  unfold init. destruct elem as [[ow oh]|]; [|discriminate].
  destruct context; [|discriminate]. intros [= <-].
  unfold sizeCanvas.
  destruct (truthy ow && truthy oh);
    (split; [split; [apply NoDup_nil_2 | intros r Hr; destruct Hr]
            | intros r Hr; discriminate Hr]).
Qed.

(** C10: removeInteractionParticle is idempotent, and when no
    interaction particle is referenced it changes nothing: the store
    keeps its length, entries and order and the reference stays unset,
    so a pointer-leave or touch-end event in that state removes no
    particle. *)
Theorem removeInteractionParticle_unset (w : World num) :
  removeInteractionParticle (removeInteractionParticle w)
    = removeInteractionParticle w /\
  (interactionParticle w = None ->
   removeInteractionParticle w = w /\
   fst (step rand opts w mouseout) = w /\
   particles (fst (step rand opts w touchend)) = particles w /\
   interactionParticle (fst (step rand opts w touchend)) = None).
Proof.
  split; [apply removeInteractionParticle_idempotent|].
  intros Hip.
  assert (Hid : removeInteractionParticle w = w).
  { unfold removeInteractionParticle. now rewrite Hip. }
  repeat split.
  - exact Hid.
  - exact Hid.
  - cbn [step fst]. unfold removeInteractionParticle.
    cbn [interactionParticle set_touchIsMoving]. now rewrite Hip.
  - cbn [step fst]. unfold removeInteractionParticle.
    cbn [interactionParticle set_touchIsMoving]. now rewrite Hip.
Qed.

(** C9 (amended): with an empty palette createParticle still returns a
    particle, whose color is undefined, and drawParticle still issues
    its five calls for it, passing the undefined color as fill style. *)
Theorem empty_palette_particle_is_drawn ox oy (w : World num) :
  Options.particleColors opts = [] ->
  let p := created rand opts ox oy w in
  createParticle rand opts ox oy w
    = (length (heap w),
       set_heap (heap w ++ [p]) (set_randomCalls (6 + randomCalls w) w)) /\
  particleColor p = None /\
  drawParticle p =
    [ beginPath; fillStyle None; globalAlpha (of_Z 0);
      arc (x p) (y p) (radius p) (of_Z 0) (nmul (of_Z 2) Math_PI); fill ].
Proof.
  intros Hpal p. split; [apply createParticle_eq|].
  assert (Hc : particleColor p = None).
  { subst p. unfold created. cbn [particleColor]. rewrite Hpal.
    destruct (as_index _); reflexivity. }
  split; [exact Hc|]. unfold drawParticle. now rewrite Hc.
Qed.
End Store.

(** ** Whole runs, frames and pointer spawning *)

Section More.
Context {num : Type} `{Number num}.
Variable rand : nat -> num.
Variable opts : Options.t num.

Lemma iter_inv (I : World num -> Prop) (f : World num -> World num) (n : nat)
    (w : World num) :
  (forall w0, I w0 -> I (f w0)) -> I w -> I (Nat.iter n f w).
Proof.
  intros Hf Hw. induction n as [|n IH]; [exact Hw|].
  rewrite Nat.iter_succ. now apply Hf.
Qed.

Lemma iter_same {A} (g : World num -> A) (f : World num -> World num) (n : nat)
    (w : World num) :
  (forall w0, g (f w0) = g w0) -> g (Nat.iter n f w) = g w.
Proof.
  intros Hf. induction n as [|n IH]; [reflexivity|].
  now rewrite Nat.iter_succ, Hf.
Qed.

(** *** The surface is touched by the frame and the resize handler only *)

Lemma spawnAt_surface ox oy (w : World num) :
  surface (spawnAt rand opts ox oy w) = surface w.
Proof. now rewrite spawnAt_eq. Qed.

Lemma spawnTick_surface (w : World num) :
  surface (spawnTick rand opts w) = surface w.
Proof.
  unfold spawnTick. destruct (createIntervalId w) as [t|]; [|reflexivity].
  destruct (nlt _ _); [|reflexivity]. now rewrite createParticle_eq.
Qed.

Lemma moveInteractionParticle_surface px py (w : World num) :
  surface (moveInteractionParticle rand opts px py w) = surface w.
Proof.
  unfold moveInteractionParticle.
  destruct (interactionParticle w) as [r|] eqn:Hip.
  - now rewrite Hip.
  - unfold createInteractionParticle, bind. now rewrite createParticle_eq.
Qed.

Lemma removeInteractionParticle_surface (w : World num) :
  surface (removeInteractionParticle w) = surface w.
Proof.
  unfold removeInteractionParticle.
  destruct (interactionParticle w) as [r|]; [|reflexivity].
  now destruct (indexOf (particles w) r).
Qed.

Lemma mouseTick_surface i (w : World num) :
  surface (mouseTick rand opts i w) = surface w.
Proof.
  unfold mouseTick. destruct (mouseIntervals w !! i) as [t|]; [|reflexivity].
  destruct (mouseIsDown w); [|reflexivity]. cbn zeta.
  change (surface (set_mouseIntervals ?l ?w1)) with (surface w1).
  apply iter_same. intros w0.
  destruct (interactionParticle w0) as [r|]; [|reflexivity].
  destruct (heap w0 !! r); [apply spawnAt_surface | reflexivity].
Qed.

Lemma touchTimeout_surface i (w : World num) :
  surface (touchTimeout rand opts i w) = surface w.
Proof.
  unfold touchTimeout.
  destruct (touchTimeouts w !! i) as [[cx cy]|]; [|reflexivity].
  cbn zeta. destruct (negb _); [|reflexivity].
  rewrite iter_same; [reflexivity|]. intros w0. apply spawnAt_surface.
Qed.

(* Every event but the frame, the resize event and the expiry of its timer
   leaves the canvas size, the frame request and the debounce timer as
   they are, and draws nothing. *)
Lemma step_surface (w : World num) (e : Event) :
  e <> frame -> e <> resize -> not_resizeFires e ->
  surface (fst (step rand opts w e)) = surface w /\
  snd (step rand opts w e) = [].
Proof.
  intros Hf Hr Hrf.
  destruct e; try congruence; try (exfalso; exact (Hrf _ _ eq_refl));
    cbn [step fst snd]; (split; [|reflexivity]);
    first [ reflexivity
          | apply moveInteractionParticle_surface
          | rewrite moveInteractionParticle_surface; reflexivity
          | apply removeInteractionParticle_surface
          | rewrite removeInteractionParticle_surface; reflexivity
          | apply spawnTick_surface
          | apply mouseTick_surface
          | apply touchTimeout_surface ].
Qed.

Lemma step_surface_or_loop (w : World num) (e : Event) :
  not_resizeFires e ->
  (surface (fst (step rand opts w e)) = surface w /\
   snd (step rand opts w e) = []) \/ e = frame \/ e = resize.
Proof.
  intros Hrf.
  assert (Hdec : e = frame \/ e = resize \/ (e <> frame /\ e <> resize)).
  { destruct e; first [now left | now right; left | right; right; split; discriminate]. }
  destruct Hdec as [ -> |[ -> |(Hf & Hr)]].
  - right. now left.
  - right. now right.
  - left. now apply step_surface.
Qed.

Lemma run_app (es1 es2 : list Event) : forall w : World num,
  run rand opts w (es1 ++ es2) =
  (fst (run rand opts (fst (run rand opts w es1)) es2),
   snd (run rand opts w es1) ++ snd (run rand opts (fst (run rand opts w es1)) es2)).
Proof.
  induction es1 as [|e es1 IH]; intros w.
  - cbn [app run fst snd]. now destruct (run rand opts w es2).
  - cbn [app run]. destruct (step rand opts w e) as [w1 d1].
    rewrite IH. destruct (run rand opts w1 es1) as [w2 d2]. cbn [fst snd].
    now rewrite app_assoc.
Qed.

Lemma run_snd_cons (w : World num) (e : Event) (es : list Event) :
  snd (run rand opts w (e :: es)) =
  snd (step rand opts w e) ++ snd (run rand opts (fst (step rand opts w e)) es).
Proof.
  cbn [run]. destruct (step rand opts w e) as [w1 d1]. cbn [fst snd].
  now destruct (run rand opts w1 es).
Qed.

(** *** A configured speed of zero *)

Lemma frame_not_rescheduled (w : World num) :
  strict_eq (Options.velocity opts) (of_Z 0) = true ->
  animationFrame (fst (step rand opts w frame)) = false.
Proof.
  intros Hv. cbn [step]. destruct (animationFrame w) eqn:Ha; [|exact Ha].
  unfold updateParticleNetwork. destruct (drawParticles _ _ _ _) as [h dots].
  now rewrite Hv.
Qed.

Lemma idle_step (w : World num) (e : Event) :
  strict_eq (Options.velocity opts) (of_Z 0) = true ->
  animationFrame w = false -> not_resizeFires e ->
  animationFrame (fst (step rand opts w e)) = false /\
  snd (step rand opts w e) = [].
Proof.
  intros Hv Ha Hrf.
  destruct (step_surface_or_loop w e Hrf) as [[Hs Hd]|[ -> | -> ]].
  - split; [|exact Hd]. unfold surface in Hs. congruence.
  - cbn [step]. now rewrite Ha.
  - split; [exact Ha | reflexivity].
Qed.

Lemma idle_run (es : list Event) : forall w : World num,
  strict_eq (Options.velocity opts) (of_Z 0) = true ->
  animationFrame w = false -> Forall not_resizeFires es ->
  animationFrame (fst (run rand opts w es)) = false /\
  snd (run rand opts w es) = [].
Proof.
  induction es as [|e es IH]; intros w Hv Ha Hes; [now split|].
  inversion Hes as [|e' es' He Hes']; subst.
  destruct (idle_step w e Hv Ha He) as (Ha1 & Hd1).
  destruct (IH _ Hv Ha1 Hes') as (Ha2 & Hd2).
  rewrite run_cons, run_snd_cons, Hd1, Hd2. now split.
Qed.

(** X1: with options.velocity equal to 0 the frame callback does not
    request another frame, and from then on no event draws anything:
    only the resize handler starts the loop again.  Particles appended
    after that single frame are never drawn. *)
Theorem loop_stops_at_zero_velocity (w : World num) (es : list Event) :
  strict_eq (Options.velocity opts) (of_Z 0) = true ->
  Forall not_resizeFires es ->
  let w1 := fst (step rand opts w frame) in
  animationFrame w1 = false /\
  animationFrame (fst (run rand opts w1 es)) = false /\
  snd (run rand opts w1 es) = [].
Proof.
  intros Hv Hes w1.
  assert (Ha : animationFrame w1 = false) by now apply frame_not_rescheduled.
  split; [exact Ha|]. now apply idle_run.
Qed.

(** *** The size of the canvas *)

Lemma initParticleNetwork_canvas (w : World num) :
  canvas_width (initParticleNetwork rand opts w) = canvas_width w /\
  canvas_height (initParticleNetwork rand opts w) = canvas_height w.
Proof. split; reflexivity. Qed.

Lemma sizeCanvas_sized ow oh (w : World num) :
  sized w -> sized (sizeCanvas ow oh w).
Proof.
  intros Hs. unfold sizeCanvas.
  destruct (truthy ow) eqn:Hw; destruct (truthy oh) eqn:Hh; cbn [andb];
    try exact Hs.
  split; assumption.
Qed.

Lemma updateParticleNetwork_canvas (w : World num) :
  canvas_width (fst (updateParticleNetwork opts w)) = canvas_width w /\
  canvas_height (fst (updateParticleNetwork opts w)) = canvas_height w.
Proof.
  unfold updateParticleNetwork. destruct (drawParticles _ _ _ _) as [h dots].
  destruct (strict_eq _ _); split; reflexivity.
Qed.

Lemma step_sized (w : World num) (e : Event) :
  sized w -> sized (fst (step rand opts w e)).
Proof.
  intros Hs.
  assert (Hdec : not_resizeFires e \/ exists ow oh, e = resizeFires ow oh).
  { destruct e; first [left; intros ? ?; discriminate | right; eauto]. }
  destruct Hdec as [Hrf|(ow & oh & ->)].
  - destruct (step_surface_or_loop w e Hrf) as [[Hsf _]|[ -> | -> ]].
    + unfold surface in Hsf. injection Hsf as Hw Hh _ _.
      unfold sized. rewrite Hw, Hh. exact Hs.
    + cbn [step]. destruct (animationFrame w); [|exact Hs].
      destruct (updateParticleNetwork_canvas (set_animationFrame false w))
        as (Hw & Hh).
      unfold sized. rewrite Hw, Hh. exact Hs.
    + exact Hs.
  - cbn [step]. destruct (resizeTimer w); [|exact Hs].
    unfold onResize. cbn [fst]. unfold sized.
    destruct (initParticleNetwork_canvas
                (sizeCanvas ow oh
                   (set_particles []
                      (set_animationFrame false (set_resizeTimer false w)))))
      as (Hw & Hh).
    rewrite Hw, Hh. apply sizeCanvas_sized. exact Hs.
Qed.

Lemma run_sized (es : list Event) : forall w : World num,
  sized w -> sized (fst (run rand opts w es)).
Proof.
  induction es as [|e es IH]; intros w Hs; [exact Hs|].
  rewrite run_cons. apply IH, step_sized, Hs.
Qed.

(** X2: sizeCanvas ignores a container that reports a zero width or a
    zero height, so the canvas, 300 by 150 when created, never gets a zero
    dimension: in every state reached from init both canvas.width and
    canvas.height are nonzero. *)
Theorem canvas_never_zero elem context (w0 : World num) (es : list Event) :
  truthy (of_Z 300) = true -> truthy (of_Z 150) = true ->
  init rand opts elem context = Some w0 ->
  truthy (canvas_width (fst (run rand opts w0 es))) = true /\
  truthy (canvas_height (fst (run rand opts w0 es))) = true.
Proof.
  intros H300 H150 Hinit. apply run_sized.
  unfold init in Hinit. destruct elem as [[ow oh]|]; [|discriminate].
  destruct context; [|discriminate]. injection Hinit as <-.
  unfold sized. destruct (initParticleNetwork_canvas
    (sizeCanvas ow oh
       (mkWorld [] (of_Z 300) (of_Z 150) None [] false None false false [] [] false 0)))
    as (Hw & Hh).
  rewrite Hw, Hh. apply sizeCanvas_sized. split; assumption.
Qed.

(** *** The timer flag *)

Lemma onResize_resizeTimer ow oh (w : World num) :
  resizeTimer (fst (onResize rand opts ow oh w)) = resizeTimer w.
Proof.
  unfold onResize, sizeCanvas. cbn [fst].
  now destruct (truthy ow && truthy oh).
Qed.

(** *** The store over whole runs *)

(** X4: in every state reached from init, whatever the events, no
    particle is in the store twice and every reference in the store points
    to an allocated particle. *)
Theorem store_never_holds_duplicates elem context (w0 : World num)
    (es : list Event) :
  init rand opts elem context = Some w0 ->
  NoDup (particles (fst (run rand opts w0 es))) /\
  (forall r, In r (particles (fst (run rand opts w0 es))) ->
             (r < length (heap (fst (run rand opts w0 es))))%nat).
Proof.
  intros Hinit. destruct (init_store_ok rand opts _ _ _ Hinit) as (Hok & _).
  exact (run_store_ok rand opts es w0 Hok).
Qed.

(** X5: the store shrinks only through pointer-leave, touch-end and the
    resize handler.  Every other event keeps the store as a prefix and
    appends only references of particles allocated by that event;
    pointer-leave and touch-end drop at most one entry and allocate
    nothing; the resize handler leaves the store empty. *)
Theorem store_changes_by_event (w : World num) (e : Event) :
  let w' := fst (step rand opts w e) in
  match e with
  | mouseout | touchend =>
      sublist (particles w') (particles w) /\
      (length (particles w) <= S (length (particles w')))%nat /\
      heap w' = heap w
  | resizeFires _ _ =>
      if resizeTimer w then particles w' = [] /\ heap w' = heap w
      else w' = w
  | _ => grows w w'
  end.
Proof.
  assert (Hrm : forall w1 : World num,
            sublist (particles (removeInteractionParticle w1)) (particles w1) /\
            (length (particles w1)
               <= S (length (particles (removeInteractionParticle w1))))%nat /\
            heap (removeInteractionParticle w1) = heap w1).
  { intros w1. unfold removeInteractionParticle.
    destruct (interactionParticle w1) as [r|];
      [|split; [reflexivity | split; [lia | reflexivity]]].
    destruct (indexOf (particles w1) r) as [i|] eqn:Hidx;
      [|split; [reflexivity | split; [lia | reflexivity]]].
    cbn [particles heap set_particles set_interactionParticle].
    apply indexOf_Some in Hidx as (Hi & _).
    split; [apply sublist_delete|]. split; [|reflexivity].
    rewrite length_delete by eauto. lia. }
  cbv zeta. destruct e; cbn [step fst].
  - apply moveInteractionParticle_grows.
  - eapply grows_trans; [|apply moveInteractionParticle_grows].
    now apply grows_same.
  - now apply grows_same.
  - now apply grows_same.
  - apply Hrm.
  - now apply grows_same.
  - apply (Hrm (set_touchIsMoving false w)).
  - now apply grows_same.
  - destruct (resizeTimer w); [|reflexivity].
    unfold onResize, sizeCanvas. cbn [fst].
    destruct (truthy offsetWidth && truthy offsetHeight); split; reflexivity.
  - apply spawnTick_grows.
  - apply mouseTick_grows.
  - apply touchTimeout_grows.
  - destruct (animationFrame w); [|apply grows_refl].
    eapply grows_trans; [|apply updateParticleNetwork_grows].
    now apply grows_same.
Qed.

(** X6: once the resize handler has run, no particle allocated before it
    is in the store again, whatever events follow. *)
Theorem no_particle_survives_resize (w : World num) (ow oh : num)
    (es : list Event) :
  resizeTimer w = true ->
  Forall (fun r => (length (heap w) <= r)%nat)
    (particles (fst (run rand opts w (resizeFires ow oh :: es)))).
Proof.
  intros Ht. apply Forall_forall. intros r Hin.
  apply list_elem_of_In in Hin. rewrite run_cons in Hin.
  destruct (resizeFires_empties rand opts w ow oh Ht) as (Hp & Hh).
  apply run_fresh in Hin as [Hin|Hge].
  - rewrite Hp in Hin. destruct Hin.
  - now rewrite Hh in Hge.
Qed.

(** X7: as long as the resize handler has not run since init, a
    pointer-move leaves exactly one entry of the store referenced as the
    interaction particle, and the pointer-leave after it clears the
    reference and removes exactly that entry. *)
Theorem pointer_leave_removes_interaction_particle elem context
    (w0 : World num) (es : list Event) (px py : num) :
  init rand opts elem context = Some w0 ->
  Forall not_resizeFires es ->
  let w := fst (run rand opts w0 es) in
  let w1 := fst (step rand opts w (mousemove px py)) in
  let w2 := fst (step rand opts w1 mouseout) in
  (exists r, interactionParticle w1 = Some r /\
             count_occ Nat.eq_dec (particles w1) r = 1%nat) /\
  interactionParticle w2 = None /\
  length (particles w2) = pred (length (particles w1)) /\
  (forall r, In r (particles w2) <->
             In r (particles w1) /\ interactionParticle w1 <> Some r).
Proof.
  intros Hinit Hes.
  destruct (init_store_ok rand opts _ _ _ Hinit) as (Hok & Htr).
  apply pointer_move_then_leave.
  - now apply run_store_ok.
  - apply run_tracked; assumption.
Qed.

(** *** The reference to the interaction particle *)

Lemma spawnTick_interactionParticle (w : World num) :
  interactionParticle (spawnTick rand opts w) = interactionParticle w.
Proof.
  unfold spawnTick. destruct (createIntervalId w) as [t|]; [|reflexivity].
  destruct (nlt _ _); [|reflexivity]. now rewrite createParticle_eq.
Qed.

Lemma mouseTick_interactionParticle i (w : World num) :
  interactionParticle (mouseTick rand opts i w) = interactionParticle w.
Proof.
  unfold mouseTick. destruct (mouseIntervals w !! i) as [t|]; [|reflexivity].
  destruct (mouseIsDown w); [|reflexivity].
  cbn [interactionParticle set_mouseIntervals].
  apply iter_interactionParticle. intros w0.
  destruct (interactionParticle w0) as [r0|] eqn:Hip0; [|exact Hip0].
  destruct (heap w0 !! r0); [|exact Hip0].
  now rewrite spawnAt_interactionParticle.
Qed.

Lemma touchTimeout_interactionParticle i (w : World num) :
  interactionParticle (touchTimeout rand opts i w) = interactionParticle w.
Proof.
  unfold touchTimeout.
  destruct (touchTimeouts w !! i) as [[cx cy]|]; [|reflexivity].
  cbn zeta. destruct (negb _); [|reflexivity].
  rewrite iter_interactionParticle; [reflexivity|].
  intros w0. apply spawnAt_interactionParticle.
Qed.

Lemma updateParticleNetwork_interactionParticle (w : World num) :
  interactionParticle (fst (updateParticleNetwork opts w)) = interactionParticle w.
Proof.
  unfold updateParticleNetwork. destruct (drawParticles _ _ _ _) as [h dots].
  now destruct (strict_eq _ _).
Qed.

Lemma onResize_interactionParticle ow oh (w : World num) :
  interactionParticle (fst (onResize rand opts ow oh w)) = interactionParticle w.
Proof.
  unfold onResize, sizeCanvas. cbn [fst]. now destruct (truthy ow && truthy oh).
Qed.

Lemma moveInteractionParticle_allocated px py (w : World num) :
  allocated w -> allocated (moveInteractionParticle rand opts px py w).
Proof.
  intros Hal r. destruct (interactionParticle w) as [r0|] eqn:Hip.
  - destruct (moveInteractionParticle_keeps rand opts px py w r0 Hip) as (Hip' & _).
    rewrite Hip'. intros [= <-].
    pose proof (moveInteractionParticle_grows rand opts px py w) as (k & Hh & _).
    rewrite Hh. specialize (Hal r0 Hip). lia.
  - destruct (moveInteractionParticle_creates rand opts px py w Hip)
      as (Hip' & _ & p & Hh & _).
    rewrite Hip', Hh, length_app. intros [= <-]. cbn [length]. lia.
Qed.

Lemma removeInteractionParticle_allocated (w : World num) :
  allocated w -> allocated (removeInteractionParticle w).
Proof.
  intros Hal r. rewrite removeInteractionParticle_heap.
  unfold removeInteractionParticle.
  destruct (interactionParticle w) as [r0|] eqn:Hip; [|now rewrite Hip].
  destruct (indexOf (particles w) r0); [discriminate|].
  rewrite Hip. intros [= <-]. now apply Hal.
Qed.

Lemma step_allocated (w : World num) (e : Event) :
  allocated w -> allocated (fst (step rand opts w e)).
Proof.
  intros Hal.
  assert (Hsame : interactionParticle (fst (step rand opts w e))
                  = interactionParticle w ->
                  allocated (fst (step rand opts w e))).
  { intros Hip r Hr. rewrite Hip in Hr. apply Hal in Hr.
    pose proof (step_heap_length rand opts w e). lia. }
  destruct e; try (apply Hsame; reflexivity); cbn [step fst].
  - now apply moveInteractionParticle_allocated.
  - now apply (moveInteractionParticle_allocated _ _ (set_touchIsMoving true w)).
  - now apply removeInteractionParticle_allocated.
  - now apply (removeInteractionParticle_allocated (set_touchIsMoving false w)).
  - apply Hsame. cbn [step]. destruct (resizeTimer w); [|reflexivity].
    now rewrite onResize_interactionParticle.
  - apply Hsame. apply spawnTick_interactionParticle.
  - apply Hsame. apply mouseTick_interactionParticle.
  - apply Hsame. apply touchTimeout_interactionParticle.
  - apply Hsame. cbn [step]. destruct (animationFrame w); [|reflexivity].
    now rewrite updateParticleNetwork_interactionParticle.
Qed.

Lemma run_allocated (es : list Event) : forall w : World num,
  allocated w -> allocated (fst (run rand opts w es)).
Proof.
  induction es as [|e es IH]; intros w Hal; [exact Hal|].
  rewrite run_cons. apply IH, step_allocated, Hal.
Qed.

Lemma init_allocated elem context (w : World num) :
  init rand opts elem context = Some w -> allocated w.
Proof.
  unfold init. destruct elem as [[ow oh]|]; [|discriminate].
  destruct context; [|discriminate]. intros [= <-].
  unfold sizeCanvas. destruct (truthy ow && truthy oh); intros r Hr; discriminate Hr.
Qed.

(** X8: in every state reached from init, a pointer-move (mouse or
    touch) leaves the interaction particle at exactly the coordinates of
    the event, also when a coordinate is 0: the coordinates are assigned
    to the fields, not passed through createParticle's overrides. *)
Theorem pointer_move_places_interaction_particle elem context
    (w0 : World num) (es : list Event) (px py : num) :
  init rand opts elem context = Some w0 ->
  let w := fst (run rand opts w0 es) in
  forall e, e = mousemove px py \/ e = touchmove px py ->
  exists r p,
    interactionParticle (fst (step rand opts w e)) = Some r /\
    heap (fst (step rand opts w e)) !! r = Some p /\
    x p = px /\ y p = py.
Proof.
  intros Hinit w e He.
  assert (Hal : allocated w) by (apply run_allocated, (init_allocated _ _ _ Hinit)).
  assert (Hmove : forall w1 : World num, allocated w1 ->
            exists r p,
              interactionParticle (moveInteractionParticle rand opts px py w1) = Some r /\
              heap (moveInteractionParticle rand opts px py w1) !! r = Some p /\
              x p = px /\ y p = py).
  { intros w1 Hal1. destruct (interactionParticle w1) as [r0|] eqn:Hip.
    - pose proof (Hal1 r0 Hip) as Hlt.
      apply lookup_lt_is_Some_2 in Hlt as (p0 & Hp0).
      exists r0, (mkParticle (opacity p0) px py (radius p0)
                    (particleColor p0) (velocity p0)).
      unfold moveInteractionParticle. rewrite Hip. cbn zeta.
      rewrite Hip. cbn [interactionParticle heap set_heap].
      rewrite list_lookup_alter_eq, Hp0.
      split; [exact Hip|]. repeat split.
    - destruct (moveInteractionParticle_creates rand opts px py w1 Hip)
        as (Hip' & _ & p & Hh & Hx & Hy & _).
      exists (length (heap w1)), p. rewrite Hip', Hh.
      rewrite lookup_app_r by reflexivity. rewrite Nat.sub_diag. now repeat split. }
  destruct He as [ -> | -> ]; cbn [step fst].
  - now apply Hmove.
  - apply Hmove. exact Hal.
Qed.

(** *** What stays of a particle *)

Lemma keeps_looks_refl (h : list (Particle num)) : keeps_looks h h.
Proof. intros r p Hp. exists p. now repeat split. Qed.

Lemma keeps_looks_trans (h1 h2 h3 : list (Particle num)) :
  keeps_looks h1 h2 -> keeps_looks h2 h3 -> keeps_looks h1 h3.
Proof.
  intros H12 H23 r p Hp. destruct (H12 r p Hp) as (p2 & Hp2 & Hr2 & Hc2).
  destruct (H23 r p2 Hp2) as (p3 & Hp3 & Hr3 & Hc3).
  exists p3. repeat split; congruence.
Qed.

Lemma keeps_looks_app (h l : list (Particle num)) : keeps_looks h (h ++ l).
Proof.
  intros r p Hp. exists p. split; [|now split].
  now apply lookup_app_l_Some.
Qed.

Lemma keeps_looks_alter (f : Particle num -> Particle num) (i : nat)
    (h : list (Particle num)) :
  (forall p, radius (f p) = radius p /\ particleColor (f p) = particleColor p) ->
  keeps_looks h (alter f i h).
Proof.
  intros Hf r p Hp. destruct (decide (i = r)) as [->|Hne].
  - exists (f p). rewrite list_lookup_alter_eq, Hp. split; [reflexivity|apply Hf].
  - exists p. rewrite list_lookup_alter_ne by exact Hne. now repeat split.
Qed.

Lemma spawnAt_keeps_looks ox oy (w : World num) :
  keeps_looks (heap w) (heap (spawnAt rand opts ox oy w)).
Proof. rewrite spawnAt_eq. apply keeps_looks_app. Qed.

Lemma iter_keeps_looks (f : World num -> World num) (n : nat) (w : World num) :
  (forall w0, keeps_looks (heap w0) (heap (f w0))) ->
  keeps_looks (heap w) (heap (Nat.iter n f w)).
Proof.
  intros Hf. induction n as [|n IH]; [apply keeps_looks_refl|].
  rewrite Nat.iter_succ. eapply keeps_looks_trans; [exact IH | apply Hf].
Qed.

Lemma drawParticles_keeps_looks cw ch (l : list ref) :
  forall (h : list (Particle num)) (d : list (Draw num)),
  keeps_looks h (fst (fold_left
    (fun (acc : list (Particle num) * list (Draw num)) (particle : ref) =>
       let h' := alter (updateParticle cw ch) particle (fst acc) in
       (h', snd acc ++ from_option drawParticle [] (h' !! particle)))
    l (h, d))).
Proof.
  induction l as [|r l IH]; intros h d; [apply keeps_looks_refl|].
  cbn [fold_left fst snd]. eapply keeps_looks_trans; [|apply IH].
  apply keeps_looks_alter. intros p. split; reflexivity.
Qed.

Lemma step_keeps_looks (w : World num) (e : Event) :
  keeps_looks (heap w) (heap (fst (step rand opts w e))).
Proof.
  destruct e; cbn [step fst]; try apply keeps_looks_refl.
  - unfold moveInteractionParticle.
    destruct (interactionParticle w) as [r|] eqn:Hip.
    + rewrite Hip. apply keeps_looks_alter. intros p. now split.
    + unfold createInteractionParticle, bind. rewrite createParticle_eq.
      cbn [snd interactionParticle heap push set_particles
           set_interactionParticle set_heap set_randomCalls].
      eapply keeps_looks_trans; [apply keeps_looks_app|].
      eapply keeps_looks_trans; apply keeps_looks_alter; intros p; now split.
  - unfold moveInteractionParticle.
    cbn [interactionParticle set_touchIsMoving].
    destruct (interactionParticle w) as [r|] eqn:Hip.
    + cbn [interactionParticle set_touchIsMoving]. rewrite Hip.
      apply keeps_looks_alter. intros p. now split.
    + unfold createInteractionParticle, bind. rewrite createParticle_eq.
      cbn [snd interactionParticle heap push set_particles set_touchIsMoving
           set_interactionParticle set_heap set_randomCalls].
      eapply keeps_looks_trans; [apply keeps_looks_app|].
      eapply keeps_looks_trans; apply keeps_looks_alter; intros p; now split.
  - rewrite removeInteractionParticle_heap. apply keeps_looks_refl.
  - rewrite removeInteractionParticle_heap. apply keeps_looks_refl.
  - destruct (resizeTimer w); [|apply keeps_looks_refl].
    unfold onResize, sizeCanvas. cbn [fst].
    destruct (truthy offsetWidth && truthy offsetHeight); apply keeps_looks_refl.
  - unfold spawnTick. destruct (createIntervalId w) as [t|]; [|apply keeps_looks_refl].
    destruct (nlt _ _); [|apply keeps_looks_refl].
    rewrite createParticle_eq. apply keeps_looks_app.
  - unfold mouseTick. destruct (mouseIntervals w !! i) as [t|]; [|apply keeps_looks_refl].
    destruct (mouseIsDown w); [|apply keeps_looks_refl].
    cbn [heap set_mouseIntervals]. apply iter_keeps_looks. intros w0.
    destruct (interactionParticle w0) as [r|]; [|apply keeps_looks_refl].
    destruct (heap w0 !! r); [apply spawnAt_keeps_looks | apply keeps_looks_refl].
  - unfold touchTimeout.
    destruct (touchTimeouts w !! i) as [[cx cy]|]; [|apply keeps_looks_refl].
    cbn zeta. destruct (negb _); [|apply keeps_looks_refl].
    apply (iter_keeps_looks _ _ (set_touchTimeouts (delete i (touchTimeouts w)) w)).
    intros w0. apply spawnAt_keeps_looks.
  - destruct (animationFrame w); [|apply keeps_looks_refl].
    unfold updateParticleNetwork.
    pose proof (drawParticles_keeps_looks (canvas_width w) (canvas_height w)
                  (particles w) (heap w) []) as Hk.
    change (fold_left _ (particles w) (heap w, []))
      with (drawParticles (canvas_width w) (canvas_height w) (particles w) (heap w)) in Hk.
    cbn [canvas_width canvas_height particles heap set_animationFrame].
    destruct (drawParticles _ _ _ _) as [h dots]. cbn [fst] in Hk.
    now destruct (strict_eq _ _).
Qed.

Lemma run_keeps_looks (es : list Event) : forall w : World num,
  keeps_looks (heap w) (heap (fst (run rand opts w es))).
Proof.
  induction es as [|e es IH]; intros w; [apply keeps_looks_refl|].
  rewrite run_cons. eapply keeps_looks_trans; [apply step_keeps_looks | apply IH].
Qed.

(** X9: a particle, once created, is never deallocated and keeps its
    radius and its color for good: after any sequence of events every
    particle of the heap is still there with the same radius and color
    (position, velocity and opacity are what the events change). *)
Theorem radius_and_color_are_fixed (w : World num) (es : list Event)
    (r : ref) (p : Particle num) :
  heap w !! r = Some p ->
  exists p',
    heap (fst (run rand opts w es)) !! r = Some p' /\
    radius p' = radius p /\ particleColor p' = particleColor p.
Proof. apply run_keeps_looks. Qed.

(** *** One frame *)

Lemma drawParticles_fold_lookup cw ch (l : list ref) :
  NoDup l ->
  forall (h : list (Particle num)) (d : list (Draw num)) (r : ref),
  fst (fold_left
    (fun (acc : list (Particle num) * list (Draw num)) (particle : ref) =>
       let h' := alter (updateParticle cw ch) particle (fst acc) in
       (h', snd acc ++ from_option drawParticle [] (h' !! particle)))
    l (h, d)) !! r
  = if decide (r ∈ l) then updateParticle cw ch <$> h !! r else h !! r.
Proof.
  induction 1 as [|a l Ha Hnd IH]; intros h d r.
  - cbn [fold_left fst]. now destruct (decide (r ∈ [])) as [Hin|_]; [inversion Hin|].
  - cbn [fold_left fst snd]. rewrite IH.
    destruct (decide (r = a)) as [->|Hne].
    + rewrite decide_False by exact Ha.
      rewrite decide_True by apply list_elem_of_here.
      apply list_lookup_alter_eq.
    + rewrite list_lookup_alter_ne by congruence.
      destruct (decide (r ∈ l)) as [Hin|Hnin].
      * rewrite decide_True by now apply list_elem_of_further. reflexivity.
      * rewrite decide_False; [reflexivity|].
        intros Hin. apply elem_of_cons in Hin as [Heq|Hin]; contradiction.
Qed.

(** X10: a frame applies updateParticle exactly once to every particle of
    a duplicate-free store, leaves every other particle of the heap as it
    is, and does not change the store. *)
Theorem frame_updates_each_particle_once (w : World num) (r : ref) :
  NoDup (particles w) ->
  let w' := fst (updateParticleNetwork opts w) in
  particles w' = particles w /\
  length (heap w') = length (heap w) /\
  heap w' !! r =
    if decide (r ∈ particles w)
    then updateParticle (canvas_width w) (canvas_height w) <$> heap w !! r
    else heap w !! r.
Proof.
  intros Hnd. cbv zeta. unfold updateParticleNetwork.
  pose proof (drawParticles_fold_lookup (canvas_width w) (canvas_height w)
                (particles w) Hnd (heap w) [] r) as Hl.
  pose proof (drawParticles_length (canvas_width w) (canvas_height w)
                (particles w) (heap w)) as Hlen.
  change (fold_left _ (particles w) (heap w, []))
    with (drawParticles (canvas_width w) (canvas_height w) (particles w) (heap w)) in Hl.
  destruct (drawParticles _ _ _ _) as [h dots]. cbn [fst] in *.
  destruct (strict_eq _ _); cbn [particles heap set_heap set_animationFrame];
    (split; [reflexivity | split; [exact Hlen | exact Hl]]).
Qed.

Lemma calls_app (kind : Draw num -> bool) (a b : list (Draw num)) :
  calls kind (a ++ b) = (calls kind a + calls kind b)%nat.
Proof. unfold calls. now rewrite List.filter_app, length_app. Qed.

Lemma connection_calls (p1 p2 : Particle num) :
  calls is_fill (connection opts p1 p2) = 0%nat /\
  (calls is_stroke (connection opts p1 p2) <= 1)%nat.
Proof.
  unfold connection. destruct (nlt _ _); [split; cbn; lia|].
  destruct (nlt _ _); split; cbn; lia.
Qed.

Lemma drawConnections_calls (w : World num) :
  calls is_fill (drawConnections opts w) = 0%nat /\
  (calls is_stroke (drawConnections opts w)
     <= length (pairs (length (particles w))))%nat.
Proof.
  unfold drawConnections. induction (pairs (length (particles w))) as [|[i j] l IH].
  - split; cbn; lia.
  - cbn [flat_map fst snd length]. rewrite !calls_app.
    destruct IH as (IHf & IHs).
    assert (Hc : calls is_fill
                   match particle_at w i, particle_at w j with
                   | Some p1, Some p2 => connection opts p1 p2
                   | _, _ => []
                   end = 0%nat /\
                 (calls is_stroke
                   match particle_at w i, particle_at w j with
                   | Some p1, Some p2 => connection opts p1 p2
                   | _, _ => []
                   end <= 1)%nat).
    { destruct (particle_at w i), (particle_at w j);
        first [apply connection_calls | split; cbn; lia]. }
    destruct Hc as (Hcf & Hcs). split; lia.
Qed.

Lemma drawParticles_fold_calls cw ch (l : list ref) :
  forall (h : list (Particle num)) (d : list (Draw num)),
  (forall r, In r l -> (r < length h)%nat) ->
  let ds := snd (fold_left
    (fun (acc : list (Particle num) * list (Draw num)) (particle : ref) =>
       let h' := alter (updateParticle cw ch) particle (fst acc) in
       (h', snd acc ++ from_option drawParticle [] (h' !! particle)))
    l (h, d)) in
  calls is_fill ds = (calls is_fill d + length l)%nat /\
  calls is_stroke ds = calls is_stroke d.
Proof.
  induction l as [|a l IH]; intros h d Hlt; cbv zeta.
  - cbn [fold_left snd length]. split; lia.
  - cbn [fold_left fst snd]. cbv zeta.
    set (h1 := alter (updateParticle cw ch) a h).
    assert (Ha : (a < length h1)%nat).
    { subst h1. rewrite length_alter. apply Hlt. now left. }
    destruct (IH h1 (d ++ from_option drawParticle [] (h1 !! a))) as (IHf & IHs).
    { intros r Hr. subst h1. rewrite length_alter. apply Hlt. now right. }
    cbv zeta in IHf, IHs. rewrite IHf, IHs, !calls_app. clear IHf IHs.
    destruct (h1 !! a) as [p|] eqn:Hp.
    + cbn [from_option length].
      change (calls is_fill (drawParticle p)) with 1%nat.
      change (calls is_stroke (drawParticle p)) with 0%nat. split; lia.
    + apply lookup_ge_None in Hp. lia.
Qed.

Lemma pairs_length (n : nat) : (2 * length (pairs n) = n * (n - 1))%nat.
Proof.
  unfold pairs. rewrite length_flat_map.
  assert (Hgen : forall m, (m <= n)%nat ->
            (2 * list_sum (map (fun i => length (map (fun j => (i, j))
                                           (rev (seq (S i) (n - S i)))))
                               (seq 0 m))
             + m * (m + 1) = 2 * m * n)%nat).
  { induction m as [|m IH]; intros Hm; [reflexivity|].
    rewrite seq_S, map_app, list_sum_app. cbn [map list_sum Nat.add].
    rewrite length_map, length_rev, length_seq.
    specialize (IH ltac:(lia)).
    set (s := list_sum _) in *. clearbody s.
    destruct (Nat.le_exists_sub (S m) n Hm) as (k & -> & _).
    replace (k + S m - S m)%nat with k by lia.
    change (list_sum [k]) with (k + 0)%nat. nia. }
  specialize (Hgen n (le_n n)).
  set (s := list_sum _) in *. clearbody s.
  destruct n as [|n]; [lia|]. replace (S n - 1)%nat with n by lia. nia.
Qed.

(** X11: the draw calls of a frame start with clearing the surface and
    resetting the alpha; when every reference in the store is allocated
    they contain exactly one fill per stored particle, and at most
    n (n - 1) / 2 strokes for a store of n particles. *)
Theorem frame_draws_each_particle_once (w : World num) :
  (forall r, In r (particles w) -> (r < length (heap w))%nat) ->
  let ds := snd (updateParticleNetwork opts w) in
  let n := length (particles w) in
  firstn 2 ds = [clearRect (of_Z 0) (of_Z 0) (canvas_width w) (canvas_height w);
                 globalAlpha (of_Z 1)] /\
  calls is_fill ds = n /\
  (2 * calls is_stroke ds <= n * (n - 1))%nat.
Proof.
  intros Hlt. cbv zeta. unfold updateParticleNetwork.
  pose proof (drawParticles_fold_calls (canvas_width w) (canvas_height w)
                (particles w) (heap w) [] Hlt) as Hd.
  cbv zeta in Hd.
  change (fold_left _ (particles w) (heap w, []))
    with (drawParticles (canvas_width w) (canvas_height w) (particles w) (heap w)) in Hd.
  destruct (drawParticles _ _ _ _) as [h dots]. cbn [snd] in *.
  destruct Hd as (Hf & Hs).
  destruct (drawConnections_calls w) as (Hcf & Hcs).
  pose proof (pairs_length (length (particles w))) as Hpl.
  split; [reflexivity|].
  rewrite !calls_app, Hcf, Hf, Hs.
  change (calls is_fill []) with 0%nat. change (calls is_stroke []) with 0%nat.
  split; [cbn; lia|].
  change (calls is_stroke [clearRect _ _ _ _; globalAlpha _]) with 0%nat. lia.
Qed.

(** *** Spawning by the pointer *)

Lemma run_repeat (e : Event) (n : nat) : forall w : World num,
  fst (run rand opts w (repeat e n))
  = Nat.iter n (fun w0 => fst (step rand opts w0 e)) w.
Proof.
  induction n as [|n IH]; intros w; [reflexivity|].
  cbn [repeat]. rewrite run_cons, IH. now rewrite Nat.iter_succ_r.
Qed.

(* The loop of the mousedown interval with the interaction particle
   referenced and allocated: k particles are appended. *)
Lemma mouse_burst (k : nat) (r : ref) : forall w : World num,
  interactionParticle w = Some r -> (r < length (heap w))%nat ->
  let w' :=
    Nat.iter k
      (fun w0 : World num =>
         match interactionParticle w0 with
         | Some r0 =>
             match heap w0 !! r0 with
             | Some ip => spawnAt rand opts (x ip) (y ip) w0
             | None => w0
             end
         | None => w0
         end) w in
  particles w' = particles w ++ seq (length (heap w)) k /\
  length (heap w') = (length (heap w) + k)%nat /\
  interactionParticle w' = Some r /\
  mouseIntervals w' = mouseIntervals w /\
  mouseIsDown w' = mouseIsDown w.
Proof.
  induction k as [|k IH]; intros w Hip Hlt; cbv zeta.
  - cbn [Nat.iter nat_rect seq]. rewrite app_nil_r, Nat.add_0_r. now repeat split.
  - rewrite Nat.iter_succ.
    destruct (IH w Hip Hlt) as (Hp & Hh & Hip' & Hmi & Hmd).
    set (wk := Nat.iter k _ w) in *. clearbody wk.
    rewrite Hip'.
    assert (Hl : (r < length (heap wk))%nat) by lia.
    destruct (heap wk !! r) as [ip|] eqn:Hipl;
      [|apply lookup_ge_None in Hipl; lia].
    rewrite spawnAt_eq.
    cbn [particles heap interactionParticle mouseIntervals mouseIsDown push
         set_particles set_heap set_randomCalls].
    rewrite Hp, Hh, length_app, seq_S, app_assoc. cbn [length].
    repeat split; try assumption. lia.
Qed.

Lemma mouseTick_held i (w : World num) c q r :
  mouseIntervals w !! i = Some (mkMouseSpawn c q) ->
  mouseIsDown w = true ->
  interactionParticle w = Some r -> (r < length (heap w))%nat ->
  let q' := if Nat.eqb c 1 then 1%nat else q in
  let w' := mouseTick rand opts i w in
  particles w' = particles w ++ seq (length (heap w)) q' /\
  length (heap w') = (length (heap w) + q')%nat /\
  interactionParticle w' = Some r /\
  mouseIntervals w' = <[i := mkMouseSpawn (S c) q']> (mouseIntervals w) /\
  mouseIsDown w' = true.
Proof.
  intros Hi Hd Hip Hlt. cbv zeta. unfold mouseTick. rewrite Hi, Hd.
  cbn [md_counter md_quantity].
  destruct (mouse_burst (if Nat.eqb c 1 then 1%nat else q) r w Hip Hlt)
    as (Hp & Hh & Hip' & Hmi & Hmd).
  cbv zeta in Hp, Hh, Hip', Hmi, Hmd.
  set (wk := Nat.iter _ _ w) in *. clearbody wk.
  cbn [particles heap interactionParticle mouseIntervals mouseIsDown
       set_mouseIntervals].
  rewrite Hmi. repeat split; try assumption. congruence.
Qed.

Lemma mouse_ticks (n : nat) (w : World num) (r : ref) :
  interactionParticle w = Some r -> (r < length (heap w))%nat ->
  let i := length (mouseIntervals w) in
  let w1 := Nat.iter (S n) (fun w0 => fst (step rand opts w0 (mouseFires i)))
              (fst (step rand opts w mousedown)) in
  particles w1 = particles w ++ seq (length (heap w)) (3 + n) /\
  length (heap w1) = (length (heap w) + (3 + n))%nat /\
  interactionParticle w1 = Some r /\
  mouseIntervals w1
    = mouseIntervals w ++ [mkMouseSpawn (S n) (if Nat.eqb n 0 then 3 else 1)%nat] /\
  mouseIsDown w1 = true.
Proof.
  intros Hip Hlt. cbv zeta. induction n as [|n IH].
  - cbn [Nat.iter nat_rect step fst].
    set (w0 := set_mouseIntervals _ _).
    destruct (mouseTick_held (length (mouseIntervals w)) w0 0 spawnQuantity r)
      as (Hp & Hh & Hip' & Hmi & Hmd); try assumption; try reflexivity.
    { subst w0. cbn [mouseIntervals set_mouseIntervals].
      rewrite lookup_app_r by reflexivity. now rewrite Nat.sub_diag. }
    cbv zeta in Hp, Hh, Hip', Hmi, Hmd. cbn [Nat.eqb] in *.
    rewrite Hp, Hh, Hip', Hmi, Hmd. subst w0.
    cbn [particles heap mouseIntervals set_mouseIntervals set_mouseIsDown].
    rewrite insert_app_r_alt by reflexivity. rewrite Nat.sub_diag.
    now repeat split.
  - rewrite Nat.iter_succ. destruct IH as (Hp & Hh & Hip' & Hmi & Hmd).
    set (wk := Nat.iter (S n) _ _) in *. clearbody wk. cbn [step fst].
    destruct (mouseTick_held (length (mouseIntervals w)) wk (S n)
                (if Nat.eqb n 0 then 3 else 1)%nat r)
      as (Hp2 & Hh2 & Hip2 & Hmi2 & Hmd2); try assumption; try lia.
    { rewrite Hmi, lookup_app_r by reflexivity. now rewrite Nat.sub_diag. }
    cbv zeta in Hp2, Hh2, Hip2, Hmi2, Hmd2.
    assert (Hq : (if Nat.eqb (S n) 1 then 1 else if Nat.eqb n 0 then 3 else 1)%nat = 1%nat).
    { destruct n; reflexivity. }
    rewrite Hq in *. rewrite Hp2, Hh2, Hip2, Hmi2, Hmd2, Hp, Hh, Hmi.
    rewrite insert_app_r_alt by reflexivity. rewrite Nat.sub_diag.
    rewrite <- app_assoc.
    replace (seq (length (heap w) + (3 + n)) 1)
      with [(length (heap w) + (3 + n))%nat] by reflexivity.
    replace (3 + S n)%nat with (S (3 + n)) by lia. rewrite seq_S.
    repeat split. lia.
Qed.

(** X12: with the interaction particle referenced and allocated, holding
    the mouse button makes the first tick of the mousedown interval append
    3 particles and every later tick 1, so n + 1 ticks append n + 3; after
    mouseup the next tick clears the interval and appends nothing. *)
Theorem mousedown_spawns (w : World num) (r : ref) (n : nat) :
  interactionParticle w = Some r -> (r < length (heap w))%nat ->
  let i := length (mouseIntervals w) in
  let w1 := fst (run rand opts w (mousedown :: repeat (mouseFires i) (S n))) in
  let w2 := fst (run rand opts w1 [mouseup; mouseFires i]) in
  particles w1 = particles w ++ seq (length (heap w)) (n + 3) /\
  particles w2 = particles w1 /\
  mouseIntervals w2 = mouseIntervals w.
Proof.
  intros Hip Hlt. cbv zeta. rewrite run_cons, run_repeat.
  destruct (mouse_ticks n w r Hip Hlt) as (Hp & _ & _ & Hmi & _).
  cbv zeta in Hp, Hmi. set (w1 := Nat.iter (S n) _ _) in *. clearbody w1.
  split; [rewrite Hp; f_equal; f_equal; lia|].
  cbn [run step fst]. unfold mouseTick.
  cbn [mouseIntervals mouseIsDown set_mouseIsDown particles].
  rewrite Hmi, lookup_app_r by reflexivity. rewrite Nat.sub_diag.
  cbn [lookup list_lookup particles mouseIntervals set_mouseIntervals set_mouseIsDown].
  split; [reflexivity|].
  rewrite delete_middle. apply app_nil_r.
Qed.

(* A tap: touchstart and the expiry of its timeout, with no touchmove
   seen. *)
Lemma tap_effect (w : World num) (cx cy : num) :
  touchIsMoving w = false ->
  let tap := fst (run rand opts w
                    [touchstart cx cy; touchFires (length (touchTimeouts w))]) in
  particles tap = particles w ++ seq (length (heap w)) 3 /\
  touchTimeouts tap = touchTimeouts w /\
  touchIsMoving tap = false /\
  (truthy cx = true -> truthy cy = true ->
   exists p1 p2 p3,
     heap tap = heap w ++ [p1; p2; p3] /\
     (x p1, y p1) = (cx, cy) /\ (x p2, y p2) = (cx, cy) /\
     (x p3, y p3) = (cx, cy)).
Proof.
  intros Hm. cbv zeta. rewrite !run_cons. cbn [run step fst]. unfold touchTimeout.
  cbn [touchTimeouts set_touchTimeouts].
  rewrite lookup_app_r by reflexivity. rewrite Nat.sub_diag.
  cbn [lookup list_lookup touchIsMoving set_touchTimeouts]. rewrite Hm.
  cbn [negb]. unfold spawnQuantity. cbn [Nat.iter nat_rect].
  rewrite !spawnAt_eq.
  cbn [particles heap touchTimeouts touchIsMoving push set_particles set_heap
       set_randomCalls set_touchTimeouts].
  rewrite delete_middle, app_nil_r, !length_app. cbn [length].
  rewrite <- !app_assoc. cbn [app seq].
  split; [do 3 f_equal; [lia | f_equal; lia]|]. split; [reflexivity|].
  split; [exact Hm|].
  intros Hx Hy. do 3 eexists. split; [reflexivity|].
  unfold created, or_else. cbn [x y]. rewrite Hx, Hy. now repeat split.
Qed.


(** X14: nothing bounds the store: n taps (touchstart followed by its
    timeout, no touchmove) append 3 n particles, whatever the size of the
    store already is. *)
Theorem taps_grow_the_store_without_bound (cx cy : num) (n : nat) :
  forall w : World num,
  touchIsMoving w = false ->
  length (particles (fst (run rand opts w (taps cx cy (length (touchTimeouts w)) n))))
  = (length (particles w) + 3 * n)%nat.
Proof.
  induction n as [|n IH]; intros w Hm.
  - cbn [taps run fst]. lia.
  - cbn [taps].
    change (touchstart cx cy :: touchFires (length (touchTimeouts w))
              :: taps cx cy (length (touchTimeouts w)) n)
      with ([touchstart cx cy; touchFires (length (touchTimeouts w))]
              ++ taps cx cy (length (touchTimeouts w)) n).
    rewrite run_app. cbn [fst].
    destruct (tap_effect w cx cy Hm) as (Hp & Ht & Hm' & _).
    cbv zeta in Hp, Ht, Hm'.
    set (w1 := fst (run rand opts w [touchstart cx cy; touchFires _])) in *.
    clearbody w1. rewrite <- Ht. rewrite (IH w1 Hm'), Hp, length_app, length_seq. lia.
Qed.
End More.

(** ** debounce and its timeouts *)

Lemma debounced_call (d : Debounced.t) :
  Debounced.ok d ->
  Debounced.call d
  = Debounced.mk (Some (Debounced.next_id d)) (S (Debounced.next_id d))
      [Debounced.next_id d] (Debounced.mainCalls d).
Proof.
  intros [Hp|(id & Ht & Hp & _)]; unfold Debounced.call.
  - destruct (Debounced.timer d); cbn; rewrite Hp; reflexivity.
  - rewrite Ht. cbn. rewrite Hp. cbn. rewrite Nat.eqb_refl. reflexivity.
Qed.

Lemma debounced_call_ok (d : Debounced.t) :
  Debounced.ok d -> Debounced.ok (Debounced.call d).
Proof.
  intros Hok. rewrite (debounced_call d Hok). right.
  exists (Debounced.next_id d). cbn. repeat split. lia.
Qed.

Lemma debounced_expire_ok (id : nat) (d : Debounced.t) :
  Debounced.ok d -> Debounced.ok (Debounced.expire id d).
Proof.
  intros Hok. unfold Debounced.expire.
  destruct (existsb _ _) eqn:Hin; [|exact Hok].
  destruct Hok as [Hp|(id' & Ht & Hp & _)]; left; cbn; rewrite Hp in *.
  - reflexivity.
  - cbn in Hin. rewrite orb_false_r in Hin. apply Nat.eqb_eq in Hin as ->.
    cbn. now rewrite Nat.eqb_refl.
Qed.

Lemma debounced_run_ok (es : list Debounced.Action) : forall d,
  Debounced.ok d -> Debounced.ok (Debounced.acts d es).
Proof.
  induction es as [|e es IH]; intros d Hok; [exact Hok|].
  apply IH. destruct e; [now apply debounced_call_ok | now apply debounced_expire_ok].
Qed.

Lemma debounced_calls (n : nat) (d : Debounced.t) :
  Debounced.ok d ->
  Nat.iter (S n) Debounced.call d
  = Debounced.mk (Some (Debounced.next_id d + n)%nat) (S (Debounced.next_id d + n))
      [(Debounced.next_id d + n)%nat] (Debounced.mainCalls d).
Proof.
  intros Hok. induction n as [|n IH].
  - cbn [Nat.iter nat_rect]. rewrite (debounced_call d Hok), Nat.add_0_r. reflexivity.
  - rewrite Nat.iter_succ, IH. unfold Debounced.call. cbn.
    rewrite Nat.eqb_refl. cbn. repeat f_equal; lia.
Qed.

(* The timeouts that expire once a single timeout [id] is pending. *)
Lemma debounced_expiries (ids : list nat) (id k c : nat) (t : option nat) :
  Debounced.mainCalls
    (Debounced.acts (Debounced.mk t k [id] c) (map Debounced.expired ids))
  = (c + if existsb (Nat.eqb id) ids then 1 else 0)%nat.
Proof.
  assert (Hdone : forall l c',
            Debounced.mainCalls
              (Debounced.acts (Debounced.mk t k [] c') (map Debounced.expired l)) = c').
  { induction l as [|i l IHl]; intros c'; [reflexivity|]. apply IHl. }
  induction ids as [|i ids IH]; [cbn; lia|].
  cbn [map Debounced.acts fold_left Debounced.act existsb].
  unfold Debounced.expire. cbn [Debounced.pending existsb].
  rewrite orb_false_r, (Nat.eqb_sym id i).
  destruct (i =? id) eqn:Hi.
  - apply Nat.eqb_eq in Hi as ->. cbn [orb List.filter Debounced.timer
      Debounced.next_id Debounced.mainCalls]. rewrite Nat.eqb_refl. cbn [negb].
    fold (Debounced.acts (Debounced.mk t k [] (S c)) (map Debounced.expired ids)).
    rewrite Hdone. lia.
  - cbn [orb]. exact IH.
Qed.

(** X3: however debounce has been used before, after any number of calls
    in a row of the function it returns exactly one timeout is pending,
    the one set by the last call, and mainFunction has not run; whichever
    of the timeouts then expire, and however often, mainFunction runs once
    if the last one is among them and not at all otherwise.  At most one
    timeout is pending at any time.  The flag [resizeTimer] of the world is
    this state seen from the resize listener: it tells whether a timeout is
    pending, a resize event is a call, and the resize handler runs exactly
    when the expiry of the timeout runs mainFunction. *)
Theorem debounce_runs_mainFunction_once (k n : nat)
    (es : list Debounced.Action) (ids : list nat) :
  let d0 := Debounced.acts (Debounced.start k) es in
  let d1 := Nat.iter (S n) Debounced.call d0 in
  let last := (Debounced.next_id d0 + n)%nat in
  (length (Debounced.pending d0) <= 1)%nat /\
  Debounced.pending d1 = [last] /\
  Debounced.timer d1 = Some last /\
  Debounced.mainCalls d1 = Debounced.mainCalls d0 /\
  Debounced.mainCalls (Debounced.acts d1 (map Debounced.expired ids))
  = (Debounced.mainCalls d0 + if existsb (Nat.eqb last) ids then 1 else 0)%nat /\
  forall (num : Type) (N : Number num) (rand : nat -> num) (opts : Options.t num)
         (w : World num) (ow oh : num),
    resizeTimer w = Debounced.armed d0 ->
    resizeTimer (fst (step rand opts w resize))
    = Debounced.armed (Debounced.call d0) /\
    forall id, Debounced.timer d0 = Some id ->
      resizeTimer (fst (step rand opts w (resizeFires ow oh)))
      = Debounced.armed (Debounced.expire id d0) /\
      (step rand opts w (resizeFires ow oh)
       = onResize rand opts ow oh (set_resizeTimer false w)
       <-> Debounced.mainCalls (Debounced.expire id d0)
           = S (Debounced.mainCalls d0)).
Proof.
  intros d0 d1 last.
  assert (Hok : Debounced.ok d0).
  { apply debounced_run_ok. now left. }
  assert (Hd1 : d1 = Debounced.mk (Some last) (S last) [last] (Debounced.mainCalls d0))
    by exact (debounced_calls n d0 Hok).
  split; [destruct Hok as [->|(id & _ & -> & _)]; cbn; lia|].
  rewrite Hd1. cbn [Debounced.pending Debounced.timer Debounced.mainCalls].
  split; [reflexivity|]. split; [reflexivity|]. split; [reflexivity|].
  split; [apply debounced_expiries|].
  intros num N rand opts w ow oh Hw. split.
  - rewrite (debounced_call d0 Hok). reflexivity.
  - intros id Ht. cbn [step]. unfold Debounced.armed in Hw.
    unfold Debounced.expire, Debounced.armed.
    destruct Hok as [Hp|(id' & Ht' & Hp & _)]; rewrite Hp in *.
    + rewrite Hw. cbn [existsb fst]. rewrite Hp, Hw. split; [reflexivity|].
      split; [|lia]. intros Heq. apply (f_equal snd) in Heq. discriminate Heq.
    + rewrite Hw. assert (id' = id) as -> by congruence.
      cbn [existsb]. rewrite Nat.eqb_refl.
      cbn [orb Debounced.pending Debounced.mainCalls List.filter negb].
      rewrite Nat.eqb_refl. cbn [negb]. split; [|now split].
      rewrite onResize_resizeTimer. reflexivity.
Qed.

(** ** Runs of the script in binary64 *)

Lemma guard_32_holds (k : nat) :
  (k < 31)%nat ->
  (of_nat k <? (800%float * 600%float / Options.density options) - #1)%J = true.
Proof.
  intros Hk.
  do 31 (destruct k as [|k]; [vm_compute; reflexivity|]). lia.
Qed.

Lemma loop_guard_32_holds (k : nat) :
  (k < 32)%nat ->
  (of_nat (0 + k) <? 800%float * 600%float / Options.density options)%J = true.
Proof.
  intros Hk.
  do 32 (destruct k as [|k]; [vm_compute; reflexivity|]). lia.
Qed.

(** C1 (as the script behaves): on a 800 by 600 canvas with divisor 15000
    the interval started by createParticles(true) is still live after 31
    ticks, clears itself on tick 32, and has then appended 31 particles to
    the store, one short of the target quantity 32. *)
Theorem initial_spawn_800x600 (rand : nat -> float) (w : World float) :
  exists w0,
    createParticles rand options 0 true (set_canvas 800%float 600%float w) = Some w0 /\
    quantity <$> createIntervalId w0 = Some 32%float /\
    createIntervalId (Nat.iter 31 (spawnTick rand options) w0) <> None /\
    createIntervalId (Nat.iter 32 (spawnTick rand options) w0) = None /\
    length (particles (Nat.iter 32 (spawnTick rand options) w0))
      = (length (particles w) + 31)%nat.
Proof.
  destruct (initial_spawn_count rand options 31 (set_canvas 800%float 600%float w))
    as (w0 & Hw0 & Hlive & Hdone & Hp).
  - exact guard_32_holds.
  - vm_compute. reflexivity.
  - exists w0. repeat split; try assumption.
    + injection Hw0 as <-. vm_compute. reflexivity.
    + rewrite Hp, length_app, length_seq. reflexivity.
Qed.

(* The loop of createParticles(false) on the same canvas appends 32. *)
Lemma synchronous_spawn_800x600 (rand : nat -> float) (w : World float) :
  exists w',
    createParticles rand options 32 false (set_canvas 800%float 600%float w) = Some w' /\
    length (particles w') = (length (particles w) + 32)%nat.
Proof.
  destruct (spawnLoop_count rand options 32 32 0
              (800%float * 600%float / Options.density options)%J (set_canvas 800%float 600%float w))
    as (w' & Hw' & Hp).
  - exact loop_guard_32_holds.
  - vm_compute. reflexivity.
  - lia.
  - exists w'. split; [exact Hw'|].
    rewrite Hp, length_app, length_seq. reflexivity.
Qed.

(** C2 (as the script behaves): an override coordinate of 0 is falsy, so
    createParticle(0, 0) is the same call as createParticle(): the particle
    is placed at the random default position, not at the origin. *)
Theorem createParticle_zero_override_ignored
    (rand : nat -> float) (opts : Options.t float) (w : World float) :
  createParticle rand opts (Some 0%float) (Some 0%float) w
    = createParticle rand opts None None w /\
  x (created rand opts (Some 0%float) (Some 0%float) w)
    = (rand (randomCalls w) * canvas_width w)%J /\
  y (created rand opts (Some 0%float) (Some 0%float) w)
    = (rand (S (randomCalls w)) * canvas_height w)%J.
Proof. repeat split. Qed.

(* With Math.random() giving 0.5 on a 800 by 600 canvas, a particle asked
   for at (0, 0) is created at (400, 300). *)
Example createParticle_origin_800x600 :
  let w := set_canvas 800%float 600%float
             (mkWorld [] 0%float 0%float None [] false None false false [] [] false 0) in
  let p := created (fun _ => 0.5%float) options (Some 0%float) (Some 0%float) w in
  (x p, y p) = (400%float, 300%float).
Proof. vm_compute. reflexivity. Qed.

(** C3 (as the script behaves): a particle starts with opacity 0; its
    opacity stays below 1 for 99 updates, the 100th update takes it to
    1.0000000000000007, above 1, and the 101st lowers it to 1. *)
Theorem opacity_overshoots_on_update_100
    (rand : nat -> float) (opts : Options.t float) (ox oy : option float)
    (w : World float) (cw ch : float) :
  let p := created rand opts ox oy w in
  let after n := opacity (Nat.iter n (updateParticle cw ch) p) in
  after 0%nat = 0%float /\
  after 99%nat = 0x1.fae147ae147b4p-1%float /\
  after 100%nat = 0x1.0000000000003p+0%float /\
  nlt 1%float (after 100%nat) = true /\
  after 101%nat = 1%float /\
  nlt (after 101%nat) (after 100%nat) = true.
Proof.
  cbv beta zeta. rewrite !opacity_iter_updateParticle.
  change (opacity (created rand opts ox oy w)) with (float_of_Z 0).
  vm_compute. repeat split.
Qed.

Lemma removeInteractionParticle_unset_witness :
  interactionParticle world_idle = None /\
  removeInteractionParticle world_idle = world_idle /\
  fst (step rand_half options world_idle mouseout) = world_idle.
Proof.
  split; [reflexivity|].
  destruct (removeInteractionParticle_unset rand_half options world_idle)
    as (_ & Hnoop).
  destruct (Hnoop eq_refl) as (Hid & Hout & _).
  split; [exact Hid | exact Hout].
Defined.

Lemma empty_palette_particle_is_drawn_witness :
  Options.particleColors options_no_colors = [] /\
  drawParticle (created rand_half options_no_colors None None world_idle) =
    [ beginPath; fillStyle None; globalAlpha 0%float;
      arc 400%float 300%float 2%float 0%float (2 * Math_PI)%float; fill ].
Proof.
  split; [reflexivity|].
  destruct (empty_palette_particle_is_drawn rand_half options_no_colors
              None None world_idle eq_refl) as (_ & _ & Hdraw).
  exact Hdraw.
Defined.

(** C9 (as stated, refuted): with the palette empty, one tick of the
    spawner and one frame on a 800 by 600 canvas produce draw calls: the
    new particle is filled, with the undefined color set as fill style. *)
Lemma empty_palette_still_draws :
  exists w0,
    init rand_half options_no_colors (Some (800%float, 600%float)) true = Some w0 /\
    snd (run rand_half options_no_colors w0 [spawnFires; frame]) =
      [ clearRect 0%float 0%float 800%float 600%float; globalAlpha 1%float;
        beginPath; fillStyle None; globalAlpha 0x1.47ae147ae147bp-7%float;
        arc 400%float 300%float 2%float 0%float (2 * Math_PI)%float; fill ].
Proof. eexists. split; [reflexivity|]. vm_compute. reflexivity. Qed.

(** C7 (as the script behaves): the resize handler empties the store but
    leaves interactionParticle set.  After it, pointer movement no longer
    puts an interaction particle into the store, and pointer-leave neither
    clears the reference nor shrinks the store. *)
Theorem interaction_particle_lost_by_resize (rand : nat -> float) :
  exists w0,
    init rand options (Some (800%float, 600%float)) true = Some w0 /\
    let w1 := fst (run rand options w0 [mousemove 10%float 10%float]) in
    let w2 := fst (run rand options w1
                     [resize; resizeFires 800%float 600%float;
                      mousemove 20%float 20%float]) in
    let w3 := fst (run rand options w2 [mouseout]) in
    let w4 := fst (run rand options w3 [mousemove 30%float 30%float]) in
    (interactionParticle w1 = Some 0%nat /\ particles w1 = [0%nat]) /\
    (interactionParticle w2 = Some 0%nat /\ particles w2 = []) /\
    (interactionParticle w3 = Some 0%nat /\ particles w3 = []) /\
    (interactionParticle w4 = Some 0%nat /\ particles w4 = []).
Proof. eexists. split; [reflexivity|]. vm_compute. repeat split. Qed.

(* The world the debounced resize handler leaves for a container of 800
   by 600: an empty store, the old heap, and a new interval. *)
Lemma resize_800x600_restarts (rand : nat -> float) (w : World float) :
  createIntervalId
    (fst (run rand options w [resize; resizeFires 800%float 600%float]))
    = Some (mkSpawn 0 32%float).
Proof. reflexivity. Qed.

(** C8 (as the script behaves): when the debounced resize handler runs
    for a container of 800 by 600, the store is emptied and the spawner
    restarted for the new size; its interval clears itself on tick 32,
    having appended 31 particles, one short of the target quantity 32,
    all of them allocated after the resize. *)
Theorem resize_repopulates_31 (rand : nat -> float) (w : World float) :
  let w1 := fst (run rand options w [resize; resizeFires 800%float 600%float]) in
  let w2 := Nat.iter 32 (spawnTick rand options) w1 in
  particles w1 = [] /\
  (canvas_width w1, canvas_height w1) = (800%float, 600%float) /\
  quantity <$> createIntervalId w1 = Some 32%float /\
  createIntervalId (Nat.iter 31 (spawnTick rand options) w1) <> None /\
  createIntervalId w2 = None /\
  particles w2 = seq (length (heap w)) 31 /\
  length (particles w2) = 31%nat /\
  Forall (fun r => (length (heap w) <= r)%nat) (particles w2).
Proof.
  cbv zeta.
  destruct (spawn_run_count rand options 31 32%float
              (fst (run rand options w [resize; resizeFires 800%float 600%float]))
              (resize_800x600_restarts rand w) guard_32_holds eq_refl)
    as (Hlive & Hdone & Hp).
  assert (Hp' : particles
                  (Nat.iter 32 (spawnTick rand options)
                     (fst (run rand options w
                             [resize; resizeFires 800%float 600%float])))
                = seq (length (heap w)) 31) by exact Hp.
  clear Hp.
  split; [reflexivity|]. split; [reflexivity|]. split; [reflexivity|].
  split; [exact Hlive|]. split; [exact Hdone|]. split; [exact Hp'|].
  split.
  - rewrite Hp'. apply length_seq.
  - rewrite Hp'. apply Forall_forall. intros r Hr.
    apply list_elem_of_In, in_seq in Hr. lia.
Qed.

(** *** The fade-in over all updates *)

Lemma fade_profile_below_100 :
  forallb
    (fun n : nat =>
       let o := Nat.iter n (@fade float _) 0%float in
       nlt o (fade o) && nlt o 1%float && negb (nlt o 0%float))
    (seq 0 100) = true.
Proof. vm_compute. reflexivity. Qed.

Lemma fade_100 : Nat.iter 100 (@fade float _) 0%float = 0x1.0000000000003p+0%float.
Proof. vm_compute. reflexivity. Qed.

Lemma fade_from_101 (k : nat) : Nat.iter (101 + k) (@fade float _) 0%float = 1%float.
Proof.
  induction k as [|k IH].
  - vm_compute. reflexivity.
  - rewrite Nat.add_succ_r, Nat.iter_succ, IH. vm_compute. reflexivity.
Qed.

(** X16: in binary64 the opacity of a created particle is never negative;
    over its first 100 updates it is below 1 and strictly increasing, after
    exactly 100 updates it is 1.0000000000000007, and after 101 or more
    updates it is exactly 1. *)
Theorem opacity_profile_binary64
    (rand : nat -> float) (opts : Options.t float) (ox oy : option float)
    (w : World float) (cw ch : float) (n : nat) :
  let o k := opacity (Nat.iter k (updateParticle cw ch) (created rand opts ox oy w)) in
  nlt (o n) 0%float = false /\
  if (n <? 100)%nat then nlt (o n) (o (S n)) = true /\ nlt (o n) 1%float = true
  else if (n =? 100)%nat then o n = 0x1.0000000000003p+0%float
  else o n = 1%float.
Proof.
  cbv beta zeta. rewrite !opacity_iter_updateParticle.
  change (opacity (created rand opts ox oy w)) with 0%float.
  destruct (Nat.ltb_spec n 100) as [Hlt|Hge].
  - pose proof fade_profile_below_100 as Hall.
    rewrite forallb_forall in Hall.
    specialize (Hall n ltac:(apply in_seq; lia)). cbv zeta in Hall.
    apply andb_prop in Hall as (Hall & H0). apply andb_prop in Hall as (Hinc & H1).
    rewrite Nat.iter_succ. apply negb_true_iff in H0. now repeat split.
  - destruct (Nat.eqb_spec n 100) as [->|Hne].
    + split; [vm_compute; reflexivity | exact fade_100].
    + replace n with (101 + (n - 101))%nat by lia. rewrite fade_from_101.
      split; [vm_compute; reflexivity | reflexivity].
Qed.

(** *** Instances of the properties of whole runs *)

Lemma init_800x600 :
  init rand_half options (Some (800%float, 600%float)) true = Some world_800x600.
Proof. vm_compute. reflexivity. Qed.

Lemma store_never_holds_duplicates_witness :
  init rand_half options (Some (800%float, 600%float)) true = Some world_800x600 /\
  NoDup (particles (fst (run rand_half options world_800x600
                           [mousemove 10%float 10%float; spawnFires; frame]))).
Proof.
  split; [exact init_800x600|].
  exact (proj1 (store_never_holds_duplicates rand_half options _ _ world_800x600
                  [mousemove 10%float 10%float; spawnFires; frame] init_800x600)).
Defined.

Lemma no_particle_survives_resize_witness :
  resizeTimer (debounce world_idle) = true /\
  Forall (fun r => (2 <= r)%nat)
    (particles (fst (run rand_half options (debounce world_idle)
                       [resizeFires 800%float 600%float; spawnFires; spawnFires]))).
Proof.
  split; [reflexivity|].
  exact (no_particle_survives_resize rand_half options (debounce world_idle)
           800%float 600%float [spawnFires; spawnFires] eq_refl).
Defined.

Lemma no_resizeFires_sample :
  Forall (not_resizeFires (num := float)) [spawnFires; mousedown; frame].
Proof. repeat constructor; intros ? ?; discriminate. Qed.

Lemma pointer_leave_removes_interaction_particle_witness :
  (init rand_half options (Some (800%float, 600%float)) true = Some world_800x600 /\
   Forall (not_resizeFires (num := float)) [spawnFires; mousedown; frame]) /\
  interactionParticle
    (fst (step rand_half options
            (fst (step rand_half options
                    (fst (run rand_half options world_800x600
                            [spawnFires; mousedown; frame]))
                    (mousemove 5%float 7%float)))
            mouseout)) = None.
Proof.
  split; [split; [exact init_800x600 | exact no_resizeFires_sample]|].
  exact (proj1 (proj2 (pointer_leave_removes_interaction_particle rand_half options
           _ _ world_800x600 [spawnFires; mousedown; frame] 5%float 7%float
           init_800x600 no_resizeFires_sample))).
Defined.

Lemma frame_updates_each_particle_once_witness :
  NoDup (particles world_idle) /\
  particles (fst (updateParticleNetwork options world_idle)) = particles world_idle.
Proof.
  assert (Hnd : NoDup (particles world_idle)) by apply (NoDup_seq 0 2).
  split; [exact Hnd|].
  exact (proj1 (frame_updates_each_particle_once options world_idle 0%nat Hnd)).
Defined.

Lemma world_idle_allocated (r : ref) :
  In r (particles world_idle) -> (r < length (heap world_idle))%nat.
Proof. intros [<-|[<-|[]]]; cbn; lia. Qed.

Lemma frame_draws_each_particle_once_witness :
  (forall r, In r (particles world_idle) -> (r < length (heap world_idle))%nat) /\
  calls is_fill (snd (updateParticleNetwork options world_idle)) = 2%nat.
Proof.
  split; [exact world_idle_allocated|].
  exact (proj1 (proj2 (frame_draws_each_particle_once options world_idle
                         world_idle_allocated))).
Defined.

Lemma loop_stops_at_zero_velocity_witness :
  (strict_eq (Options.velocity options_still) (of_Z 0) = true /\
   Forall (not_resizeFires (num := float)) [spawnFires; mousedown; frame]) /\
  snd (run rand_half options_still
         (fst (step rand_half options_still world_idle frame))
         [spawnFires; mousedown; frame]) = [].
Proof.
  split; [split; [reflexivity | exact no_resizeFires_sample]|].
  exact (proj2 (proj2 (loop_stops_at_zero_velocity rand_half options_still world_idle
                         [spawnFires; mousedown; frame] eq_refl no_resizeFires_sample))).
Defined.

Lemma mousedown_spawns_witness :
  (interactionParticle world_pointer = Some 1%nat /\
   (1 < length (heap world_pointer))%nat) /\
  particles (fst (run rand_half options world_pointer
                    (mousedown :: repeat (mouseFires 0) 3)))
  = [0; 1; 2; 3; 4; 5; 6]%nat.
Proof.
  assert (Hlt : (1 < length (heap world_pointer))%nat) by (cbn; lia).
  split; [split; [reflexivity | exact Hlt]|].
  exact (proj1 (mousedown_spawns rand_half options world_pointer 1 2 eq_refl Hlt)).
Defined.


Lemma taps_grow_the_store_without_bound_witness :
  touchIsMoving world_idle = false /\
  length (particles (fst (run rand_half options world_idle
                            (taps 30%float 40%float 0 4)))) = 14%nat.
Proof.
  split; [reflexivity|].
  exact (taps_grow_the_store_without_bound rand_half options 30%float 40%float 4
           world_idle eq_refl).
Defined.

Lemma pointer_move_places_interaction_particle_witness :
  init rand_half options (Some (800%float, 600%float)) true = Some world_800x600 /\
  exists r p,
    interactionParticle
      (fst (step rand_half options
              (fst (run rand_half options world_800x600 [spawnFires]))
              (mousemove 0%float 0%float))) = Some r /\
    heap (fst (step rand_half options
                 (fst (run rand_half options world_800x600 [spawnFires]))
                 (mousemove 0%float 0%float))) !! r = Some p /\
    x p = 0%float /\ y p = 0%float.
Proof.
  split; [exact init_800x600|].
  exact (pointer_move_places_interaction_particle rand_half options _ _
           world_800x600 [spawnFires] 0%float 0%float init_800x600
           (mousemove 0%float 0%float) (or_introl eq_refl)).
Defined.

Lemma canvas_never_zero_witness :
  (truthy (of_Z 300 : float) = true /\ truthy (of_Z 150 : float) = true /\
   init rand_half options (Some (0%float, 600%float)) true
     = Some (mkWorld [] 300%float 150%float None [] true
               (Some (mkSpawn 0 3%float)) false false [] [] false 0)) /\
  truthy (canvas_width
            (fst (run rand_half options
                    (mkWorld [] 300%float 150%float None [] true
                       (Some (mkSpawn 0 3%float)) false false [] [] false 0)
                    [resize; resizeFires 0%float 0%float]))) = true.
Proof.
  assert (Hinit : init rand_half options (Some (0%float, 600%float)) true
     = Some (mkWorld [] 300%float 150%float None [] true
               (Some (mkSpawn 0 3%float)) false false [] [] false 0))
    by (vm_compute; reflexivity).
  split; [split; [reflexivity | split; [reflexivity | exact Hinit]]|].
  exact (proj1 (canvas_never_zero rand_half options _ _ _
                  [resize; resizeFires 0%float 0%float] eq_refl eq_refl Hinit)).
Defined.

Lemma radius_and_color_are_fixed_witness :
  heap world_idle !! 0%nat
    = Some (mkParticle 1%float 10%float 10%float 2%float (Some "#aaa"%string)
              (Velocity.mk 0.25%float 0.25%float)) /\
  exists p',
    heap (fst (run rand_half options world_idle
                 [frame; mousemove 3%float 4%float; frame])) !! 0%nat = Some p' /\
    radius p' = 2%float /\ particleColor p' = Some "#aaa"%string.
Proof.
  split; [reflexivity|].
  exact (radius_and_color_are_fixed rand_half options world_idle
           [frame; mousemove 3%float 4%float; frame] 0%nat _ eq_refl).
Defined.

Lemma debounce_runs_mainFunction_once_witness :
  resizeTimer world_idle
  = Debounced.armed (Debounced.acts (Debounced.start 0)
                       [Debounced.called; Debounced.expired 0]) /\
  Debounced.mainCalls
    (Debounced.acts
       (Nat.iter 3 Debounced.call
          (Debounced.acts (Debounced.start 0) [Debounced.called; Debounced.expired 0]))
       (map Debounced.expired [1; 3; 3; 2]%nat)) = 2%nat /\
  resizeTimer (fst (step rand_half options world_idle resize)) = true.
Proof.
  split; [reflexivity|].
  pose proof (debounce_runs_mainFunction_once 0 2
                [Debounced.called; Debounced.expired 0] [1; 3; 3; 2]%nat)
    as (_ & _ & _ & _ & Hruns & Hlink).
  split; [exact Hruns|].
  exact (proj1 (Hlink float float_Number rand_half options world_idle
                  0%float 0%float eq_refl)).
Defined.

(** ** Statements over all coordinates, in exact arithmetic *)

Local Open Scope R_scope.

Lemma Rltb_true a b : Rltb a b = true <-> a < b.
Proof. unfold Rltb. destruct (Rlt_dec a b); split; intros; try easy. Qed.

Lemma Rltb_false a b : Rltb a b = false <-> b <= a.
Proof.
  unfold Rltb. destruct (Rlt_dec a b); split; intros; try easy; lra.
Qed.

Lemma Rabs_le_hypot a b : Rabs a <= R_sqrt.sqrt (a ^ 2 + b ^ 2).
Proof.
  rewrite <- sqrt_Rsqr_abs. apply sqrt_le_1_alt. unfold Rsqr. nra.
Qed.

Lemma prefilter_lower_bound (p1 p2 : Particle R) :
  Rmin (Rabs (x p1 - x p2)) (Rabs (y p1 - y p2)) <= euclid p1 p2.
Proof.
  eapply Rle_trans; [apply Rmin_l | apply Rabs_le_hypot].
Qed.

Lemma connection_eq_reference (opts : Options.t R) (p1 p2 : Particle R) :
  connection opts p1 p2 = connection_reference opts p1 p2.
Proof.
  unfold connection, connection_reference.
  cbn [nlt nsub nadd Math_min Math_abs Math_sqrt Math_pow R_Number].
  destruct (Rltb (Options.netLineDistance opts)
              (Rmin (Rabs (x p1 - x p2)) (Rabs (y p1 - y p2)))) eqn:Hpre;
    [|reflexivity].
  apply Rltb_true in Hpre.
  pose proof (prefilter_lower_bound p1 p2) as Hlb. unfold euclid in Hlb.
  destruct (Rltb _ (R_sqrt.sqrt _)) eqn:Hex; [reflexivity|].
  apply Rltb_false in Hex. lra.
Qed.

(** C4: the renderer with the cheap pre-filter issues the same draw calls,
    in the same order and with the same alphas, as the renderer that
    tests the Euclidean distance only; the reason is that the smaller of
    |x1 - x2| and |y1 - y2| never exceeds the Euclidean distance. *)
Theorem prefilter_refines_reference (opts : Options.t R) (w : World R) :
  drawConnections opts w = drawConnections_reference opts w /\
  (forall p1 p2 : Particle R,
     Rmin (Rabs (x p1 - x p2)) (Rabs (y p1 - y p2)) <= euclid p1 p2).
Proof.
  split; [|exact prefilter_lower_bound].
  unfold drawConnections, drawConnections_reference.
  apply flat_map_ext. intros [i j]. cbn [fst snd].
  destruct (particle_at w i), (particle_at w j); try reflexivity.
  apply connection_eq_reference.
Qed.

(** *** The pairs the renderer visits *)




Section Lines.
Context {num : Type} `{Number num}.
Variable opts : Options.t num.
Local Open Scope js_scope.




End Lines.








Lemma euclid_a_b : euclid particle_a particle_b = 5.
Proof.
  unfold euclid. cbn [x y particle_a particle_b].
  replace ((0 - 3) ^ 2 + (0 - 4) ^ 2) with (5 * 5) by ring.
  apply sqrt_square. lra.
Qed.

(** *** Bouncing off the band around the canvas *)

Ltac bounce_cases :=
  cbv zeta; unfold updateParticle;
  cbn [nlt nadd nneg of_Z R_Number x y velocity Velocity.x Velocity.y];
  unfold Rltb;
  repeat (match goal with
          | |- context [Rlt_dec ?a ?b] => destruct (Rlt_dec a b)
          end;
          cbn [orb x y velocity Velocity.x Velocity.y] in *);
  intros; repeat split; lra.

(** C6: a particle that has just left the band [-100, width + 100]
    through one step of its x-velocity (its previous position x - vx was
    inside) gets the sign of its x-velocity flipped by the next update,
    which also integrates the position; the update after that does not
    flip it again, so the particle keeps moving with the flipped sign.
    The same holds for the y axis and the band [-100, height + 100]. *)
Theorem bounce_without_reflip (cw ch : R) (p : Particle R) :
  let vx := Velocity.x (velocity p) in
  let vy := Velocity.y (velocity p) in
  let p1 := updateParticle cw ch p in
  let p2 := updateParticle cw ch p1 in
  ((cw + 100 < x p \/ x p < -100) ->
   -100 <= x p - vx <= cw + 100 ->
   Velocity.x (velocity p1) = - vx /\ x p1 = x p - vx /\
   Velocity.x (velocity p2) = - vx /\ x p2 = x p1 - vx) /\
  ((ch + 100 < y p \/ y p < -100) ->
   -100 <= y p - vy <= ch + 100 ->
   Velocity.y (velocity p1) = - vy /\ y p1 = y p - vy /\
   Velocity.y (velocity p2) = - vy /\ y p2 = y p1 - vy).
Proof.
  split; intros [Hout|Hout] Hprev; revert Hout Hprev; bounce_cases.
Qed.

Lemma bounce_without_reflip_witness :
  ((800 + 100 < x particle_out \/ x particle_out < -100) /\
   -100 <= x particle_out - 2 <= 800 + 100 /\
   (600 + 100 < y particle_out \/ y particle_out < -100) /\
   -100 <= y particle_out - -3 <= 600 + 100) /\
  velocity (updateParticle 800 600 (updateParticle 800 600 particle_out))
    = Velocity.mk (- 2) (- -3).
Proof.
  assert (Hx : 800 + 100 < x particle_out \/ x particle_out < -100)
    by (left; cbn; lra).
  assert (Hpx : -100 <= x particle_out - 2 <= 800 + 100) by (cbn; lra).
  assert (Hy : 600 + 100 < y particle_out \/ y particle_out < -100)
    by (right; cbn; lra).
  assert (Hpy : -100 <= y particle_out - -3 <= 600 + 100) by (cbn; lra).
  split; [repeat split; first [exact Hx | exact Hy | apply Hpx | apply Hpy]|].
  destruct (bounce_without_reflip 800 600 particle_out) as (Bx & By).
  destruct (Bx Hx Hpx) as (_ & _ & Hvx & _).
  destruct (By Hy Hpy) as (_ & _ & Hvy & _).
  destruct (velocity (updateParticle 800 600 (updateParticle 800 600 particle_out)))
    as [vx2 vy2].
  cbn [Velocity.x Velocity.y] in Hvx, Hvy. now rewrite Hvx, Hvy.
Defined.

(** *** The fade-in in exact arithmetic *)

(* Without rounding the opacity after n updates is min(n / 100, 1): it
   reaches 1 exactly at update 100.  The overshoot shown for binary64 is
   the accumulated rounding error of the one hundred additions of 0.01. *)
Lemma opacity_exact (n : nat) :
  Nat.iter n (@fade R _) 0 = Rmin (INR n / 100) 1.
Proof.
  induction n as [|n IH].
  - cbn [Nat.iter nat_rect INR]. unfold Rmin. destruct (Rle_dec _ _); lra.
  - rewrite Nat.iter_succ, IH, S_INR. unfold fade.
    cbn [nlt nadd ndiv of_Z R_Number].
    assert (Hn : 100 <= INR n \/ INR n + 1 <= 100).
    { destruct (le_lt_dec 100 n) as [Hge|Hlt].
      - left. rewrite INR_IZR_INZ. apply IZR_le. lia.
      - right. rewrite INR_IZR_INZ, <- plus_IZR. apply IZR_le. lia. }
    unfold Rltb, Rmin.
    repeat match goal with
           | |- context [Rle_dec ?a ?b] => destruct (Rle_dec a b)
           | |- context [Rlt_dec ?a ?b] => destruct (Rlt_dec a b)
           end; lra.
Qed.

Lemma opacity_exact_bounded (cw ch : R) (p : Particle R) (n : nat) :
  opacity p = 0 ->
  0 <= opacity (Nat.iter n (updateParticle cw ch) p) <= 1 /\
  opacity (Nat.iter n (updateParticle cw ch) p)
    <= opacity (Nat.iter (S n) (updateParticle cw ch) p).
Proof.
  intros Hp. rewrite !opacity_iter_updateParticle, Hp, !opacity_exact, S_INR.
  pose proof (pos_INR n). unfold Rmin.
  repeat match goal with
         | |- context [Rle_dec ?a ?b] => destruct (Rle_dec a b)
         end; lra.
Qed.

(** *** The throttled spawner for a whole-number target *)

(* Whenever the target quantity is a whole number N + 1, the interval of
   createParticles(true) appends N particles and then clears itself. *)
Lemma initial_spawn_integer_target (rand : nat -> R) (opts : Options.t R)
    (w : World R) (N : nat) :
  canvas_width w * canvas_height w / Options.density opts = INR (S N) ->
  exists w0,
    createParticles rand opts 0 true w = Some w0 /\
    createIntervalId (Nat.iter N (spawnTick rand opts) w0) <> None /\
    createIntervalId (Nat.iter (S N) (spawnTick rand opts) w0) = None /\
    particles (Nat.iter (S N) (spawnTick rand opts) w0)
      = particles w ++ seq (length (heap w)) N.
Proof.
  intros Hq. apply initial_spawn_count; cbv zeta;
    cbn [nlt nsub nmul ndiv of_Z R_Number]; rewrite Hq, S_INR;
    unfold of_nat; cbn [of_Z R_Number].
  - intros k Hk. apply Rltb_true. rewrite <- INR_IZR_INZ.
    apply lt_INR in Hk. lra.
  - apply Rltb_false. rewrite <- INR_IZR_INZ. lra.
Qed.

(** *** Motion near the band *)






(** *** What the factory produces *)

Lemma Int_part_IZR (z : Z) : Int_part (IZR z) = z.
Proof. symmetry. apply Int_part_spec. lra. Qed.

Lemma Int_part_within (a : R) (lo hi : Z) :
  IZR lo <= a < IZR hi -> (lo <= Int_part a < hi)%Z.
Proof.
  intros (Hlo & Hhi). destruct (base_Int_part a) as (Hle & Hgt). split.
  - apply Z.lt_succ_r, lt_IZR. rewrite succ_IZR. lra.
  - apply lt_IZR. lra.
Qed.

(** X18: if Math.random() stays in [0, 1), the canvas has positive
    dimensions and options.velocity is not negative, a particle created
    without overrides has opacity 0, a position inside the canvas and
    velocity components in [-velocity / 2, velocity / 2]; with a non-empty
    palette its color is one of the palette. *)
Theorem created_particle_ranges (rand : nat -> R) (opts : Options.t R)
    (w : World R) :
  (forall k, 0 <= rand k < 1) ->
  0 < canvas_width w -> 0 < canvas_height w ->
  0 <= Options.velocity opts ->
  let p := created rand opts None None w in
  let v := Options.velocity opts in
  opacity p = 0 /\
  0 <= x p < canvas_width w /\
  0 <= y p < canvas_height w /\
  - v / 2 <= Velocity.x (velocity p) <= v / 2 /\
  - v / 2 <= Velocity.y (velocity p) <= v / 2 /\
  (Options.particleColors opts <> [] ->
   exists c, particleColor p = Some c /\ In c (Options.particleColors opts)).
Proof.
  intros Hr Hw Hh Hv. cbv zeta. unfold created, or_else.
  cbn [opacity x y radius velocity particleColor Velocity.x Velocity.y
       nadd nsub nmul ndiv of_Z Math_round Math_floor as_index R_Number].
  pose proof (Hr (0 + randomCalls w)%nat) as H0.
  pose proof (Hr (1 + randomCalls w)%nat) as H1.
  pose proof (Hr (2 + randomCalls w)%nat) as H2.
  pose proof (Hr (3 + randomCalls w)%nat) as H3.
  pose proof (Hr (4 + randomCalls w)%nat) as H4.
  pose proof (Hr (5 + randomCalls w)%nat) as H5.
  split; [reflexivity|]. split; [nra|]. split; [nra|].
  split; [nra|]. split; [nra|].
  intros Hne. unfold of_nat. cbn [of_Z R_Number]. unfold R_index.
  rewrite Int_part_IZR.
  set (len := length (Options.particleColors opts)) in *.
  assert (Hlen : (0 < len)%nat).
  { subst len. destruct (Options.particleColors opts); [contradiction|cbn; lia]. }
  assert (Hz : (0 <= Int_part (rand (3 + randomCalls w)%nat * IZR (Z.of_nat len))
                < Z.of_nat len)%Z).
  { apply Int_part_within.
    assert (0 < IZR (Z.of_nat len)) by (apply (IZR_lt 0); lia).
    split; nra. }
  destruct (Req_dec_T _ _) as [_|Hn]; [|contradiction Hn; reflexivity].
  destruct (Z.leb_spec 0 (Int_part (rand (3 + randomCalls w)%nat * IZR (Z.of_nat len))));
    [|lia].
  assert (Hl : (Z.to_nat (Int_part (rand (3 + randomCalls w)%nat * IZR (Z.of_nat len)))
                < length (Options.particleColors opts))%nat) by (fold len; lia).
  apply lookup_lt_is_Some_2 in Hl as (c & Hc). exists c. split; [exact Hc|].
  apply list_elem_of_In, list_elem_of_lookup. eauto.
Qed.

(** X19: in exact arithmetic the radius of every created particle is 2:
    for Math.random() in [0, 1) the number handed to Math.round lies in
    [1.5, 2.5), which Math.round takes to 2.  In binary64 the radius is 2
    for Math.random() = 0.5, but 3 for the largest value below 1: there
    1.5 + r rounds to 2.5, which Math.round takes to 3. *)
Theorem created_radius_two_or_three :
  (forall (rand : nat -> R) (opts : Options.t R) (ox oy : option R) (w : World R),
     (forall k, 0 <= rand k < 1) ->
     radius (created rand opts ox oy w) = 2) /\
  (forall (opts : Options.t float) (ox oy : option float) (w : World float),
     radius (created rand_half opts ox oy w) = 2%float /\
     (forall k, PrimFloat.ltb (rand_below_one k) 1 = true) /\
     radius (created rand_below_one opts ox oy w) = 3%float).
Proof.
  split.
  - intros rand opts ox oy w Hr. unfold created.
    cbn [radius nadd nsub nmul ndiv of_Z Math_round R_Number].
    pose proof (Hr (2 + randomCalls w)%nat) as H2.
    f_equal. symmetry. apply Int_part_spec. lra.
  - intros opts ox oy w. split; [reflexivity|]. split; [intros k|]; reflexivity.
Qed.

(** *** The line alpha *)

(** X20: for a positive netLineDistance and particle opacities in [0, 1],
    every alpha the line renderer sets for a pair lies in [0, 1]. *)
Theorem line_alpha_in_unit_interval (opts : Options.t R) (p1 p2 : Particle R)
    (a : R) :
  0 < Options.netLineDistance opts ->
  0 <= opacity p1 <= 1 -> 0 <= opacity p2 <= 1 ->
  In (globalAlpha a) (connection opts p1 p2) ->
  0 <= a <= 1.
Proof.
  intros Ht H1 H2. rewrite connection_eq_reference. unfold connection_reference.
  cbn [nlt nsub nadd nmul ndiv of_Z Math_sqrt Math_pow R_Number].
  set (d := R_sqrt.sqrt _). set (t := Options.netLineDistance opts) in *.
  destruct (Rltb t d) eqn:Hd; [intros []|].
  apply Rltb_false in Hd. pose proof (sqrt_pos ((x p1 - x p2) ^ 2 + (y p1 - y p2) ^ 2)) as Hd0.
  fold d in Hd0.
  intros Hin. cbn [In] in Hin.
  destruct Hin as [Hi|[Hi|[Hi|[Hi|[Hi|[Hi|[Hi|[]]]]]]]]; try discriminate Hi.
  injection Hi as <-.
  assert (Hu : 0 <= (t - d) / t <= 1).
  { assert (Hi : 0 < / t) by now apply Rinv_0_lt_compat.
    assert (Hr : t * / t = 1) by (apply Rinv_r, Rgt_not_eq, Ht).
    unfold Rdiv. split; nra. }
  set (u := (t - d) / t) in *. clearbody u.
  assert (Hv : 0 <= u * opacity p1 <= 1) by nra.
  set (v := u * opacity p1) in *. clearbody v. nra.
Qed.

(** *** The two branches of createParticles *)

Lemma of_nat_INR (k : nat) : @of_nat R _ k = INR k.
Proof. unfold of_nat. cbn [of_Z R_Number]. symmetry. apply INR_IZR_INZ. Qed.

(** X21: for a target quantity q = width * height / density, the interval
    of createParticles(true) appends N particles and then clears itself,
    where N is the whole number with N < q <= N + 1, and N = 0 when
    q <= 1: one particle fewer than q rounded up, and none at all for a
    surface whose area is at most the density divisor. *)
Theorem timed_spawn_appends_ceil_minus_one (rand : nat -> R)
    (opts : Options.t R) (w : World R) (N : nat) :
  let q := canvas_width w * canvas_height w / Options.density opts in
  q <= INR N + 1 -> (N = 0%nat \/ INR N < q) ->
  exists w0,
    createParticles rand opts 0 true w = Some w0 /\
    createIntervalId (Nat.iter N (spawnTick rand opts) w0) <> None /\
    createIntervalId (Nat.iter (S N) (spawnTick rand opts) w0) = None /\
    particles (Nat.iter (S N) (spawnTick rand opts) w0)
      = particles w ++ seq (length (heap w)) N.
Proof.
  intros q Hhi Hlo. apply initial_spawn_count; cbv zeta;
    cbn [nlt nsub nmul ndiv of_Z R_Number]; fold q.
  - intros k Hk. rewrite of_nat_INR. apply Rltb_true.
    destruct Hlo as [->|Hlo]; [lia|].
    assert (INR k + 1 <= INR N).
    { rewrite <- S_INR. apply le_INR. lia. }
    lra.
  - rewrite of_nat_INR. apply Rltb_false. lra.
Qed.

(** X22: the loop of createParticles(false) appends N particles, where N
    is the whole number with N - 1 < q <= N, and N = 0 when q <= 0: q
    rounded up, given at least N rounds. *)
Theorem synchronous_spawn_appends_ceil (rand : nat -> R)
    (opts : Options.t R) (w : World R) (N fuel : nat) :
  let q := canvas_width w * canvas_height w / Options.density opts in
  q <= INR N -> (N = 0%nat \/ INR N - 1 < q) -> (N <= fuel)%nat ->
  exists w',
    createParticles rand opts fuel false w = Some w' /\
    particles w' = particles w ++ seq (length (heap w)) N.
Proof.
  intros q Hhi Hlo Hf. unfold createParticles.
  cbn [nmul ndiv R_Number]. fold q.
  apply (spawnLoop_count rand opts N fuel 0 q w); try assumption;
    cbn [nlt R_Number].
  - intros k Hk. cbn [Nat.add]. rewrite of_nat_INR. apply Rltb_true.
    destruct Hlo as [->|Hlo]; [lia|].
    assert (INR k + 1 <= INR N).
    { rewrite <- S_INR. apply le_INR. lia. }
    lra.
  - cbn [Nat.add]. rewrite of_nat_INR. apply Rltb_false. lra.
Qed.

(** *** Instances *)

Lemma rand_middle_unit (k : nat) : 0 <= rand_middle k < 1.
Proof. unfold rand_middle. lra. Qed.



Lemma created_particle_ranges_witness :
  ((forall k, 0 <= rand_middle k < 1) /\
   0 < canvas_width world_ab /\ 0 < canvas_height world_ab /\
   0 <= Options.velocity opts_5) /\
  0 <= x (created rand_middle opts_5 None None world_ab) < canvas_width world_ab.
Proof.
  assert (Hw : 0 < canvas_width world_ab) by (cbn; lra).
  assert (Hh : 0 < canvas_height world_ab) by (cbn; lra).
  assert (Hv : 0 <= Options.velocity opts_5) by (cbn; lra).
  split; [repeat split; first [apply rand_middle_unit | assumption]|].
  exact (proj1 (proj2 (created_particle_ranges rand_middle opts_5 world_ab
                         rand_middle_unit Hw Hh Hv))).
Defined.

Lemma created_radius_two_or_three_witness :
  (forall k, 0 <= rand_middle k < 1) /\
  radius (created rand_middle opts_5 None None world_ab) = 2.
Proof.
  split; [exact rand_middle_unit|].
  exact (proj1 created_radius_two_or_three rand_middle opts_5 None None world_ab
           rand_middle_unit).
Defined.

Lemma connection_a_b :
  connection opts_5 particle_a particle_b =
    [ beginPath; strokeStyle "#929292"%string;
      globalAlpha ((5 - euclid particle_a particle_b) / 5 * 1 * 1);
      lineWidth (7 / 10); moveTo 0 0; lineTo 3 4; stroke ].
Proof.
  rewrite connection_eq_reference. unfold connection_reference.
  cbn [nlt nsub nadd nmul ndiv of_Z Math_sqrt Math_pow R_Number].
  fold (euclid particle_a particle_b).
  assert (Hd : Rltb (Options.netLineDistance opts_5) (euclid particle_a particle_b) = false).
  { apply Rltb_false. rewrite euclid_a_b. cbn. lra. }
  now rewrite Hd.
Qed.

Lemma line_alpha_in_unit_interval_witness :
  (0 < Options.netLineDistance opts_5 /\
   0 <= opacity particle_a <= 1 /\ 0 <= opacity particle_b <= 1 /\
   In (globalAlpha ((5 - euclid particle_a particle_b) / 5 * 1 * 1))
      (connection opts_5 particle_a particle_b)) /\
  0 <= (5 - euclid particle_a particle_b) / 5 * 1 * 1 <= 1.
Proof.
  assert (Ht : 0 < Options.netLineDistance opts_5) by (cbn; lra).
  assert (H1 : 0 <= opacity particle_a <= 1) by (cbn; lra).
  assert (H2 : 0 <= opacity particle_b <= 1) by (cbn; lra).
  assert (Hin : In (globalAlpha ((5 - euclid particle_a particle_b) / 5 * 1 * 1))
                  (connection opts_5 particle_a particle_b)).
  { rewrite connection_a_b. right. right. now left. }
  split; [repeat split; first [assumption | apply H1 | apply H2]|].
  exact (line_alpha_in_unit_interval opts_5 particle_a particle_b _ Ht H1 H2 Hin).
Defined.

Lemma target_32 :
  canvas_width world_ab * canvas_height world_ab / Options.density opts_5 = 32.
Proof. cbn. lra. Qed.

Lemma timed_spawn_appends_ceil_minus_one_witness :
  (canvas_width world_ab * canvas_height world_ab / Options.density opts_5
     <= INR 31 + 1 /\
   INR 31 < canvas_width world_ab * canvas_height world_ab / Options.density opts_5) /\
  exists w0,
    createParticles rand_middle opts_5 0 true world_ab = Some w0 /\
    createIntervalId (Nat.iter 31 (spawnTick rand_middle opts_5) w0) <> None /\
    createIntervalId (Nat.iter 32 (spawnTick rand_middle opts_5) w0) = None /\
    particles (Nat.iter 32 (spawnTick rand_middle opts_5) w0)
      = particles world_ab ++ seq (length (heap world_ab)) 31.
Proof.
  assert (H31 : INR 31 = 31) by (rewrite INR_IZR_INZ; reflexivity).
  assert (Hhi : canvas_width world_ab * canvas_height world_ab / Options.density opts_5
                <= INR 31 + 1) by (rewrite target_32, H31; lra).
  assert (Hlo : INR 31 < canvas_width world_ab * canvas_height world_ab
                         / Options.density opts_5) by (rewrite target_32, H31; lra).
  split; [split; assumption|].
  exact (timed_spawn_appends_ceil_minus_one rand_middle opts_5 world_ab 31
           Hhi (or_intror Hlo)).
Defined.

Lemma synchronous_spawn_appends_ceil_witness :
  (canvas_width world_ab * canvas_height world_ab / Options.density opts_5
     <= INR 32 /\
   INR 32 - 1 < canvas_width world_ab * canvas_height world_ab / Options.density opts_5 /\
   (32 <= 40)%nat) /\
  exists w',
    createParticles rand_middle opts_5 40 false world_ab = Some w' /\
    particles w' = particles world_ab ++ seq (length (heap world_ab)) 32.
Proof.
  assert (H32 : INR 32 = 32) by (rewrite INR_IZR_INZ; reflexivity).
  assert (Hhi : canvas_width world_ab * canvas_height world_ab / Options.density opts_5
                <= INR 32) by (rewrite target_32, H32; lra).
  assert (Hlo : INR 32 - 1 < canvas_width world_ab * canvas_height world_ab
                             / Options.density opts_5) by (rewrite target_32, H32; lra).
  assert (Hf : (32 <= 40)%nat) by lia.
  split; [repeat split; assumption|].
  exact (synchronous_spawn_appends_ceil rand_middle opts_5 world_ab 32 40
           Hhi (or_intror Hlo) Hf).
Defined.


(** *** A particle at rest *)

Lemma updateParticle_at_rest (cw ch : R) (p : Particle R) :
  velocity p = Velocity.mk 0 0 ->
  x (updateParticle cw ch p) = x p /\ y (updateParticle cw ch p) = y p /\
  velocity (updateParticle cw ch p) = Velocity.mk 0 0.
Proof.
  intros Hv. unfold updateParticle. rewrite Hv.
  cbn [nlt nadd nneg of_Z R_Number x y velocity Velocity.x Velocity.y].
  rewrite Ropp_0.
  destruct (Rltb _ _ || Rltb _ _); destruct (Rltb _ _ || Rltb _ _);
    repeat split; lra.
Qed.

(** X23: a particle with velocity (0, 0), as the interaction particle has,
    is never moved by the frames, wherever it is: it stays where the last
    pointer event put it, and its velocity stays (0, 0). *)
Theorem particle_at_rest_stays (cw ch : R) (p : Particle R) (n : nat) :
  velocity p = Velocity.mk 0 0 ->
  let q := Nat.iter n (updateParticle cw ch) p in
  x q = x p /\ y q = y p /\ velocity q = Velocity.mk 0 0.
Proof.
  intros Hv. cbv zeta. induction n as [|n IH]; [now repeat split|].
  rewrite Nat.iter_succ. destruct IH as (Hx & Hy & Hv').
  destruct (updateParticle_at_rest cw ch _ Hv') as (Sx & Sy & Sv).
  repeat split; congruence.
Qed.

Lemma particle_at_rest_stays_witness :
  velocity particle_b = Velocity.mk 0 0 /\
  x (Nat.iter 5 (updateParticle 800 600) particle_b) = 3.
Proof.
  split; [reflexivity|].
  exact (proj1 (particle_at_rest_stays 800 600 particle_b 5 eq_refl)).
Defined.
